(** * replay-fsm: a shallow embedding of [src/lib/fsm.js]

    The engine of [src/lib/fsm.js] is embedded function by function:
    [getLabel], [makeStates], [invokePromiseFn], [saveToHashList],
    [callbackHashList], [logTransitions], [runFSM], [rerunFSM] and the class
    [FSM] with [on], [advance] and [addTransition].

    Modelling conventions.
    - A JavaScript value is a [value]; reference values (arrays, objects)
      carry their identity [ref], so that Rocq equality on them is [===].
      Numbers are the safe integers (absolute value below 2^53; no NaN, no
      negative zero, no fractions), for which [===] and SameValueZero
      coincide with equality and the string conversion prints all digits.
    - A promise is modelled by the way it settles: [Returns v] (fulfilled
      with [v]) or [Throws e] (rejected with [e], or a synchronous throw,
      which [invokePromiseFn] turns into a rejection).  A promise that never
      settles is outside the model; every [await] is a sequencing point.
    - Host functions are state transformers: a [transitionFn] works on the
      host state [Host], a handler on the whole [World] (host state, clock
      and the heap of log arrays).  Host functions do not touch the engine
      instance itself.  A host function has run to its end when it returns:
      it is synchronous, or asynchronous and settled before anything else
      runs.  Handlers that are pending at the same time, whose order of
      settling [Promise.all] observes, are outside the model.
    - JavaScript objects used as hash lists are maps from property keys to
      lists; plain objects (event payloads, log records) are maps from
      property names to fields. *)

From stdpp Require Import gmap strings list fin_maps pretty.

Open Scope Z_scope.

(** ** Values *)

#[warnings="-register-all"]
Inductive value :=
  | VUndefined
  | VNull
  | VBool (b : bool)
  | VNum (n : Z)                                     (* a safe integer *)
  | VStr (s : string)
  | VSym (id : nat) (description : option string)   (* Symbol(description) *)
  | VArr (ref : nat) (elems : list value)           (* an Array *)
  | VObj (ref : nat) (str : string).                (* any other object; [str] is String(obj) *)

(** Decidable equality: [===] on the values of the model. *)
Fixpoint value_eqb (a b : value) : bool :=
  match a, b with
  | VUndefined, VUndefined => true
  | VNull, VNull => true
  | VBool x, VBool y => bool_decide (x = y)
  | VNum x, VNum y => bool_decide (x = y)
  | VStr x, VStr y => bool_decide (x = y)
  | VSym i d, VSym j e => bool_decide (i = j) && bool_decide (d = e)
  | VArr r l, VArr s m =>
      bool_decide (r = s) &&
      (fix go (l m : list value) : bool :=
         match l, m with
         | [], [] => true
         | x :: l', y :: m' => value_eqb x y && go l' m'
         | _, _ => false
         end) l m
  | VObj r s, VObj q t => bool_decide (r = q) && bool_decide (s = t)
  | _, _ => false
  end.

(** ToBoolean *)
Definition truthy (v : value) : bool :=
  match v with
  | VUndefined | VNull => false
  | VBool b => b
  | VNum n => negb (bool_decide (n = 0))
  | VStr s => negb (bool_decide (s = ""))
  | VSym _ _ | VArr _ _ | VObj _ _ => true
  end.

(** [v + ""]: ToString; [None] is the TypeError of a Symbol operand.
    An array joins its elements with a comma, [undefined] and [null]
    elements giving the empty string.  A number prints its digits, as
    JavaScript does for the safe integers; beyond them (rounding above
    2^53, exponent notation from 1e21) the numbers are not values of the
    model. *)
Fixpoint toString (v : value) : option string :=
  match v with
  | VUndefined => Some "undefined"
  | VNull => Some "null"
  | VBool b => Some (if b then "true" else "false")
  | VNum n => Some (pretty n)
  | VStr s => Some s
  | VSym _ _ => None
  | VArr _ elems =>
      (fix join (l : list value) : option string :=
         match l with
         | [] => Some ""
         | x :: rest =>
             match (match x with
                    | VUndefined | VNull => Some ""
                    | _ => toString x
                    end),
                   join rest with
             | Some s, Some r =>
                 Some (match rest with [] => s | _ => s +:+ "," +:+ r end)
             | _, _ => None
             end
         end) elems
  | VObj _ s => Some s
  end.

(** Property keys of an object: strings and symbols. *)
Inductive propkey :=
  | KStr (s : string)
  | KSym (id : nat) (description : option string).

Global Instance propkey_eq_dec : EqDecision propkey.
Proof. solve_decision. Defined.

Global Instance propkey_countable : Countable propkey.
Proof.
  refine (inj_countable'
            (λ k, match k with KStr s => inl s | KSym i d => inr (i, d) end)
            (λ x, match x with inl s => KStr s | inr (i, d) => KSym i d end) _).
  by intros [].
Defined.

(** ToPropertyKey: a symbol is its own key, anything else is converted to a
    string. *)
Definition toPropertyKey (v : value) : option propkey :=
  match v with
  | VSym i d => Some (KSym i d)
  | _ => KStr <$> toString v
  end.

(** The names every object inherits from [Object.prototype]: on a hash list
    created as [{}] the lookup [hashList[key]] finds these although the
    list has no such own property. *)
Definition objectPrototype : list string :=
  [ "constructor"; "__defineGetter__"; "__defineSetter__"; "hasOwnProperty";
    "__lookupGetter__"; "__lookupSetter__"; "isPrototypeOf";
    "propertyIsEnumerable"; "toString"; "valueOf"; "__proto__";
    "toLocaleString" ].

Definition inherited (k : propkey) : bool :=
  match k with
  | KStr s => bool_decide (s ∈ objectPrototype)
  | KSym _ _ => false
  end.

(** const EMPTY = Symbol("EMPTY"); const ERROR = Symbol("ERROR"); *)
Definition EMPTY : value := VSym 0 (Some "EMPTY").
Definition ERROR : value := VSym 1 (Some "ERROR").

(** const getLabel = state => state.description || state + "";
    [None] is a TypeError: the property read on [undefined] or [null], or
    the string conversion of a symbol without a (non-empty) description.
    Strings, numbers, booleans, arrays and the objects of the model have no
    [description] property. *)
Definition getLabel (state : value) : option string :=
  match state with
  | VUndefined | VNull => None
  | VSym _ (Some d) => if bool_decide (d = "") then None else Some d
  | _ => toString state
  end.

(** const makeStates = (...states) => states.reduce(...): the object that
    maps the label of each state to the state, as the map of its own
    members.  The assignment [acc["__proto__"] = state] is the one that
    stores no own member. *)
Definition makeStates (states : list value) : option (gmap string value) :=
  foldl (λ acc state,
           match acc, getLabel state with
           | Some m, Some l =>
               Some (if bool_decide (l = "__proto__") then m else <[l := state]> m)
           | _, _ => None
           end) (Some ∅) states.

(** const EVENTS = makeStates('pretransition', 'posttransition'); *)
Definition EVENTS : option (gmap string value) :=
  makeStates [VStr "pretransition"; VStr "posttransition"].

Definition pretransition : value := VStr "pretransition".
Definition posttransition : value := VStr "posttransition".

(** What the engine can throw or reject with: its own [FSMError], a
    TypeError of the runtime, or a value thrown by host code. *)
Inductive exn :=
  | FSMError (message : string)
  | TypeError
  | Thrown (e : value).

(** The settlement of the promise of a host function. *)
Inductive outcome :=
  | Returns (v : value)
  | Throws (e : value).

Inductive completion (A : Type) :=
  | Fulfilled (a : A)
  | Rejected (e : exn).
Arguments Fulfilled {A} a.
Arguments Rejected {A} e.

(** Array.prototype.includes on the values of the model. *)
Definition includes (l : list value) (x : value) : bool :=
  existsb (value_eqb x) l.

(** ** Hash lists *)

(** const saveToHashList = (hashList, key, value, prepend=false) => ...
    [None] is a TypeError: the key cannot be converted, or
    [hashList[key]] finds a member of [Object.prototype], which has no
    [push] or [unshift].  In the second case line 31 has already stored the
    inherited member as an own entry when line 32 throws: the hash list
    after such a refused call is not a table of lists any more and is not
    modelled, the call gives no table back. *)
Definition saveToHashList {A : Type} (hashList : gmap propkey (list A))
    (key : value) (value : A) (prepend : bool) : option (gmap propkey (list A)) :=
  match toPropertyKey key with
  | None => None
  | Some k =>
      match hashList !! k with
      | Some l => Some (<[k := if prepend then value :: l else l ++ [value]]> hashList)
      | None =>
          if inherited k then None
          else Some (<[k := if prepend then value :: [] else [] ++ [value]]> hashList)
      end
  end.

(** const invokePromiseFn = (fn, ...args) => ...: a synchronous throw and a
    rejection are the same outcome. *)
Definition invokePromiseFn {S A : Type} (fn : A → S → S * outcome) (args : A) (s : S)
    : S * outcome :=
  fn args s.

Section Engine.

Context {Host : Type}.

(** A transition function: called with the transition input, it works on
    the host state. *)
Definition hostFn : Type := list value → Host → Host * outcome.

(** The object [{transitionFn, nextState, errorState}] stored by
    [addTransition]; a missing member is [undefined]. *)
Record rule := Rule {
  transitionFn : option hostFn;
  nextState : value;
  errorState : value
}.

(** The members of the objects the engine builds. *)
Inductive field :=
  | FValue (v : value)
  | FArray (l : list value)     (* an array built by the engine *)
  | FRule (r : rule)
  | FDate (t : Z).

Local Abbreviation object := (gmap string field).

Record World := {
  host : Host;
  clock : Z;                     (* what [new Date()] reads *)
  heap : list (list object)      (* the log arrays, by reference *)
}.

Definition set_host (h : Host) (w : World) : World :=
  {| host := h; clock := clock w; heap := heap w |}.

Definition set_heap (hp : list (list object)) (w : World) : World :=
  {| host := host w; clock := clock w; heap := hp |}.

(** An event handler: called with the event payload. *)
Definition handler : Type := object → World → World * outcome.

(** class FSM *)
Record FSM := {
  currentState : value;
  callbacks : gmap propkey (list handler);
  validTransitions : gmap propkey (list rule);
  inTransition : bool
}.

Definition set_currentState (s : value) (this : FSM) : FSM :=
  {| currentState := s; callbacks := callbacks this;
     validTransitions := validTransitions this; inTransition := inTransition this |}.

Definition set_inTransition (b : bool) (this : FSM) : FSM :=
  {| currentState := currentState this; callbacks := callbacks this;
     validTransitions := validTransitions this; inTransition := b |}.

(** constructor (initialState = EMPTY) *)
Definition new_FSM (initialState : value) : FSM :=
  {| currentState := match initialState with VUndefined => EMPTY | _ => initialState end;
     callbacks := ∅; validTransitions := ∅; inTransition := false |}.

(** on(eventName, callback) *)
Definition on (eventName : value) (callback : handler) (this : FSM) : option FSM :=
  match saveToHashList (callbacks this) eventName callback false with
  | Some cbs =>
      Some {| currentState := currentState this; callbacks := cbs;
              validTransitions := validTransitions this;
              inTransition := inTransition this |}
  | None => None
  end.

(** addTransition (startingState, {transitionFn, nextState, errorState}, prepend) *)
Definition addTransition (startingState : value) (r : rule) (prepend : bool) (this : FSM)
    : completion FSM :=
  if negb (bool_decide (is_Some (transitionFn r))) && negb (truthy (nextState r)) then
    Rejected (match getLabel startingState with
              | Some l => FSMError ("cannot add transition from " +:+ l +:+
                                    " without a transitionFn or nextState defined")
              | None => TypeError
              end)
  else
    match saveToHashList (validTransitions this) startingState r prepend with
    | Some vt =>
        Fulfilled {| currentState := currentState this; callbacks := callbacks this;
                     validTransitions := vt; inTransition := inTransition this |}
    | None => Rejected TypeError
    end.

(** const callbackHashList = (hashList, eventName, ...args) =>
      Promise.all((hashList[eventName] || []).map(fn => invokePromiseFn(fn, ...args)));
    [map] calls every handler, in registration order, also after one has
    thrown.  The handlers of the model have run to their end when they
    return, so their promises are settled in that order when [Promise.all]
    looks at them, and the join fails with the first failure in
    registration order.  (Of handlers that are pending together,
    [Promise.all] takes the rejection that comes first in time and does not
    wait for the others; that is outside the model.) *)
Definition callbackHashList (hashList : gmap propkey (list handler)) (eventName : value)
    (arg : object) (w : World) : World * option exn :=
  match toPropertyKey eventName with
  | None => (w, Some TypeError)
  | Some k =>
      match hashList !! k with
      | None => (w, if inherited k then Some TypeError else None)
      | Some fns =>
          foldl (λ (acc : World * option exn) (fn : handler),
                   let '(w', o) := invokePromiseFn fn arg acc.1 in
                   (w', match acc.2, o with
                        | None, Throws e => Some (Thrown e)
                        | err, _ => err
                        end))
                (w, None) fns
      end
  end.

(** ** advance *)

(** The variables of the candidate scan:
    let nextState, attemptedTransition, attemptResult, transitionOutput = [] *)
Record scan_vars := {
  scan_nextState : value;
  attemptedTransition : option rule;
  transitionOutput : list value
}.

Definition scan_init : scan_vars :=
  {| scan_nextState := VUndefined; attemptedTransition := None; transitionOutput := [] |}.

(** The body of the [for] loop, for the candidate [attempted]. *)
Definition attempt (attempted : rule) (transitionInput : list value) (h : Host)
    : Host * scan_vars :=
  let vars ns out :=
    {| scan_nextState := ns; attemptedTransition := Some attempted; transitionOutput := out |} in
  let ns := nextState attempted in
  match transitionFn attempted with
  | None => (h, vars ns [])
  | Some fn =>
      match invokePromiseFn fn transitionInput h with
      | (h', Returns attemptResult) =>
          if truthy attemptResult then
            match attemptResult with
            | VArr _ elems =>
                if negb (truthy ns) then
                  (h', vars (hd VUndefined elems) (tl elems))
                else (h', vars ns elems)
            | _ =>
                if negb (truthy ns) then (h', vars attemptResult [])
                else (h', vars ns [attemptResult])
            end
          else (h', vars ns [])
      | (h', Throws e) =>
          (h', vars (if truthy (errorState attempted) then errorState attempted else ERROR) [e])
      end
  end.

(** for (let transitionIndex = 0;
         !nextState && transitionIndex < this.validTransitions[this.currentState].length;
         transitionIndex++) *)
Fixpoint scan (candidates : list rule) (transitionInput : list value) (h : Host)
    (vars : scan_vars) : Host * scan_vars :=
  match candidates with
  | [] => (h, vars)
  | attempted :: rest =>
      if negb (truthy (scan_nextState vars)) then
        let '(h', vars') := attempt attempted transitionInput h in
        scan rest transitionInput h' vars'
      else (h, vars)
  end.

Definition prePayload (from : value) (input : list value) : object :=
  <["from" := FValue from]> (<["input" := FArray input]> ∅).

Definition postPayload (from to : value) (transition : option rule)
    (input output : list value) : object :=
  <["from" := FValue from]>
    (<["to" := FValue to]>
       (<["transition" := match transition with
                          | Some r => FRule r
                          | None => FValue VUndefined
                          end]>
          (<["input" := FArray input]> (<["output" := FArray output]> ∅)))).

(** The exit of [advance] once a next state is resolved:
      const prevState = this.currentState;
      this.currentState = nextState;
      try { await callbackHashList(..., EVENTS.posttransition, {...});
            return [this.currentState, ...transitionOutput];
      } finally { this.inTransition = false; } *)
Definition commit (this : FSM) (transitionInput : list value) (vars : scan_vars)
    (w : World) : World * FSM * completion (list value) :=
  let prevState := currentState this in
  let this := set_currentState (scan_nextState vars) this in
  match callbackHashList (callbacks this) posttransition
          (postPayload prevState (scan_nextState vars) (attemptedTransition vars)
             transitionInput (transitionOutput vars)) w with
  | (w, Some e) => (w, set_inTransition false this, Rejected e)
  | (w, None) =>
      (w, set_inTransition false this,
       Fulfilled (currentState this :: transitionOutput vars))
  end.

(** async advance(...transitionInput) *)
Definition advance (transitionInput : list value) (this : FSM) (w : World)
    : World * FSM * completion (list value) :=
  if inTransition this then
    (w, this, Rejected (FSMError "cannot advance while in transition"))
  else
    let this := set_inTransition true this in
    match callbackHashList (callbacks this) pretransition
            (prePayload (currentState this) transitionInput) w with
    | (w, Some e) => (w, set_inTransition false this, Rejected e)
    | (w, None) =>
        match toPropertyKey (currentState this) with
        | None => (w, this, Rejected TypeError)
        | Some k =>
            let '(h, vars) :=
              match validTransitions this !! k with
              | Some candidates => scan candidates transitionInput (host w) scan_init
              | None => (host w, scan_init)
              end in
            let w := set_host h w in
            if negb (truthy (scan_nextState vars)) then
              (w, this,
               Rejected (match getLabel (currentState this) with
                         | Some l => FSMError ("No valid transition from state " +:+ l)
                         | None => TypeError
                         end))
            else commit this transitionInput vars w
        end
    end.

(** ** The transition log *)

(** transitionLog.push(record) on the array [transitionLog] of the heap; it
    returns the new length.  A reference is an index of the heap. *)
Definition push (transitionLog : nat) (record : object) (w : World) : World * outcome :=
  let hp := alter (λ l, l ++ [record]) transitionLog (heap w) in
  (set_heap hp w,
   Returns (VNum (Z.of_nat (length (default [] (hp !! transitionLog)))))).

(** transitionData => transitionLog.push({time: new Date(), ...transitionData}) *)
Definition logHandler (transitionLog : nat) : handler :=
  λ transitionData w,
    push transitionLog (transitionData ∪ <["time" := FDate (clock w)]> ∅) w.

(** const logTransitions = (fsm, transitionLog = []) => ...: the log is an
    array of the heap, a new empty one when the argument is missing. *)
Definition logTransitions (fsm : FSM) (transitionLog : option nat) (w : World)
    : option (World * FSM * nat) :=
  let '(w, transitionLog) :=
    match transitionLog with
    | Some a => (w, a)
    | None => (set_heap (heap w ++ [[]]) w, length (heap w))
    end in
  match on posttransition (logHandler transitionLog) fsm with
  | Some fsm => Some (w, fsm, transitionLog)
  | None => None
  end.

(** ** The run driver *)

(** while (!finalStates.includes(nextState)) {
      result = [nextState, ...args] = await fsm.advance(...args);
    }
    return result;
    [fuel] bounds the number of iterations; [None] in the last component
    says that the loop is still running when the fuel is used up.  [result]
    is [None] while it is [undefined]. *)
Fixpoint runFSM_loop (fuel : nat) (finalStates : list value) (nextState : value)
    (args : list value) (result : option (list value)) (fsm : FSM) (w : World)
    : World * FSM * option (completion (option (list value))) :=
  if includes finalStates nextState then (w, fsm, Some (Fulfilled result))
  else
    match fuel with
    | O => (w, fsm, None)
    | S fuel =>
        match advance args fsm w with
        | (w, fsm, Rejected e) => (w, fsm, Some (Rejected e))
        | (w, fsm, Fulfilled r) =>
            runFSM_loop fuel finalStates (hd VUndefined r) (tl r) (Some r) fsm w
        end
    end.

(** finalStates = Array.isArray(finalStates) ? finalStates : [finalStates, ERROR]; *)
Definition normalizeFinalStates (finalStates : value) : list value :=
  match finalStates with
  | VArr _ elems => elems
  | _ => [finalStates; ERROR]
  end.

(** const runFSM = async (fsm, finalStates, ...args) => ... *)
Definition runFSM (fuel : nat) (fsm : FSM) (finalStates : value) (args : list value)
    (w : World) : World * FSM * option (completion (option (list value))) :=
  runFSM_loop fuel (normalizeFinalStates finalStates) VUndefined args None fsm w.

(** ** Resumption *)

(** [o.k] on a plain object: a missing member reads as [undefined]. *)
Definition member (k : string) (o : object) : field :=
  default (FValue VUndefined) (o !! k).

(** [t.to === initialState]: an engine-built array, a rule or a date is
    never identical to a state of the model. *)
Definition field_is (f : field) (v : value) : bool :=
  match f with
  | FValue x => value_eqb x v
  | _ => false
  end.

Definition field_truthy (f : field) : bool :=
  match f with
  | FValue v => truthy v
  | _ => true
  end.

(** The spread [...args] of a member: an array gives its elements, a string
    its characters, anything else is not iterable ([None], a TypeError). *)
Definition spread (f : field) : option (list value) :=
  match f with
  | FArray l => Some l
  | FValue (VArr _ l) => Some l
  | FValue (VStr s) => Some ((λ c, VStr (String c EmptyString)) <$> String.list_ascii_of_string s)
  | _ => None
  end.

(** (transitionLog.slice().reverse().filter(t => t.to === initialState)[0] || {}).output || [] *)
Definition resumeArgs (transitionLog : list object) (initialState : value) : field :=
  let output :=
    member "output"
      (default ∅ (head (filter (λ t, field_is (member "to" t) initialState = true)
                               (reverse transitionLog)))) in
  if field_truthy output then output else FArray [].

(** const rerunFSM = (fsm, initialState, finalStates, transitionLog = []) => ... *)
Definition rerunFSM (fuel : nat) (fsm : FSM) (initialState finalStates : value)
    (transitionLog : list object) (w : World)
    : World * FSM * option (completion (option (list value))) :=
  let args := resumeArgs transitionLog initialState in
  let fsm := set_currentState initialState fsm in
  match spread args with
  | Some args => runFSM fuel fsm finalStates args w
  | None => (w, fsm, Some (Rejected TypeError))
  end.

(** ** Vocabulary of the statements *)

(** Array.isArray *)
Definition isArray (v : value) : bool :=
  match v with
  | VArr _ _ => true
  | _ => false
  end.

(** The pretransition join of [advance input] on [this] in the world [w]
    succeeds and leaves the world [w1]. *)
Definition pre_ok (this : FSM) (input : list value) (w w1 : World) : Prop :=
  inTransition this = false ∧
  callbackHashList (callbacks this) pretransition
    (prePayload (currentState this) input) w = (w1, None).

(** The candidates of the current state: the empty list when the table
    has no own entry for it, [None] when the state has no property key. *)
Definition candidates (this : FSM) : option (list rule) :=
  match toPropertyKey (currentState this) with
  | Some k => Some (default [] (validTransitions this !! k))
  | None => None
  end.

(** [advance input] on [this] gets as far as the candidate [r]: the
    pretransition join succeeds (world [w1]), the candidates before [r],
    [skipped], leave the next state unresolved, and [r] is attempted in
    the host state [h]; [rest] are the candidates after [r]. *)
Definition reaches (this : FSM) (input : list value) (w w1 : World)
    (skipped : list rule) (h : Host) (r : rule) (rest : list rule) : Prop :=
  pre_ok this input w w1 ∧
  candidates this = Some (skipped ++ r :: rest) ∧
  ∃ vars, scan skipped input (host w1) scan_init = (h, vars) ∧
          truthy (scan_nextState vars) = false.

(** The candidates the scan attempts, in the order of the attempts. *)
Fixpoint tried (cands : list rule) (input : list value) (h : Host) (vars : scan_vars)
    : list rule :=
  match cands with
  | [] => []
  | attempted :: rest =>
      if negb (truthy (scan_nextState vars)) then
        attempted :: (let '(h', vars') := attempt attempted input h in
                      tried rest input h' vars')
      else []
  end.

(** [n] calls of [advance] in a row, all fulfilled, each fed the output of
    the one before: the loop variables [nextState] and [args] of [runFSM]
    after [n] iterations. *)
Fixpoint iterate (n : nat) (nextState : value) (args : list value) (fsm : FSM)
    (w : World) : option (World * FSM * value * list value) :=
  match n with
  | O => Some (w, fsm, nextState, args)
  | S n =>
      match advance args fsm w with
      | (w', fsm', Fulfilled r) => iterate n (hd VUndefined r) (tl r) fsm' w'
      | (_, _, Rejected _) => None
      end
  end.

(** The loop variable [nextState] of [runFSM] after [n] iterations. *)
Definition state_after (n : nat) (args : list value) (fsm : FSM) (w : World)
    : option value :=
  (λ x, x.1.2) <$> iterate n VUndefined args fsm w.

(** The candidate [r], attempted with [input] in the host state [h],
    leaves the next state unresolved: the scan goes on to the candidate
    after it. *)
Definition advances_scan (r : rule) (input : list value) (h : Host) : Prop :=
  truthy (scan_nextState (attempt r input h).2) = false.

(** "Not applicable" in the words of the specification: no static
    [nextState], and a [transitionFn] that returns a falsy value. *)
Definition not_applicable (r : rule) (input : list value) (h : Host) : Prop :=
  truthy (nextState r) = false ∧
  ∃ fn h' v, transitionFn r = Some fn ∧ fn input h = (h', Returns v) ∧ truthy v = false.

(** The rules [addTransition] accepts. *)
Definition well_formed (r : rule) : Prop :=
  is_Some (transitionFn r) ∨ truthy (nextState r) = true.

(** Host code registering rules one after the other. *)
Definition addTransitions (registrations : list (value * rule * bool)) (this : FSM)
    : completion FSM :=
  foldl (λ acc reg,
           match acc with
           | Fulfilled fsm => addTransition reg.1.1 reg.1.2 reg.2 fsm
           | Rejected e => Rejected e
           end) (Fulfilled this) registrations.

(** The record [{time, from, to, transition, input, output}]. *)
Definition transitionRecord (time : Z) (from to : value) (transition : rule)
    (input output : list value) : object :=
  list_to_map [("time", FDate time); ("from", FValue from); ("to", FValue to);
               ("transition", FRule transition); ("input", FArray input);
               ("output", FArray output)].

(** The claim of the specification about [runFSM], in its words: the calls
    of [advance] lead from the engine's current state to a listed final
    state or to the global [ERROR] sentinel ... *)
Definition listed (finalStates : value) : list value :=
  match finalStates with
  | VArr _ elems => elems
  | _ => [finalStates]
  end.

Definition reaches_final (fsm : FSM) (finalStates : value) (args : list value)
    (w : World) : Prop :=
  ∃ n s, state_after (S n) args fsm w = Some s ∧
         (includes (listed finalStates) s = true ∨ s = ERROR).

(** ... and [runFSM] terminates and returns a result [[state, ...output]]. *)
Definition returns_final (fsm : FSM) (finalStates : value) (args : list value)
    (w : World) : Prop :=
  ∃ fuel w' fsm' result,
    runFSM fuel fsm finalStates args w = (w', fsm', Some (Fulfilled (Some result))).

End Engine.

(** ** Example machines *)

Module Examples.

Definition A : value := VStr "A".
Definition B : value := VStr "B".
Definition C : value := VStr "C".
Definition ERR1 : value := VStr "ERR1".
Definition EVEN : value := VStr "EVEN".
Definition ODD : value := VStr "ODD".
Definition err : value := VObj 1 "Error: err".

(** The host state counts the calls of the transition functions. *)
Definition world0 : @World nat := {| host := 0%nat; clock := 1577836800000; heap := [] |}.

(** () => v *)
Definition returning (v : value) : @hostFn nat := λ _ calls, (S calls, Returns v).

(** () => { throw e; } *)
Definition throwing (e : value) : @hostFn nat := λ _ calls, (S calls, Throws e).

(** (...args) => [...args] *)
Definition passthrough : @hostFn nat := λ args calls, (S calls, Returns (VArr 0 args)).

(** (...args) => [s, ...args] *)
Definition passthroughTo (s : value) : @hostFn nat :=
  λ args calls, (S calls, Returns (VArr 0 (s :: args))).

(** (str) => str + c *)
Definition appending (c : string) : @hostFn nat :=
  λ args calls,
    (S calls, Returns (match args with
                       | VStr str :: _ => VStr (str +:+ c)
                       | _ => VStr ("undefined" +:+ c)
                       end)).

(** A handler that throws [e]. *)
Definition failing (e : value) : @handler nat := λ _ w, (w, Throws e).

(** An engine in the state [A] with the given table and callbacks. *)
Definition machine (table : gmap propkey (list (@rule nat)))
    (cbs : gmap propkey (list (@handler nat))) : @FSM nat :=
  {| currentState := A; callbacks := cbs; validTransitions := table;
     inTransition := false |}.

Definition toB : @rule nat := Rule None B VUndefined.
Definition toC : @rule nat := Rule None C VUndefined.

Definition toA : @rule nat := Rule None A VUndefined.

(** {transitionFn: () => [0, 1]} *)
Definition zeroFirst : @rule nat :=
  Rule (Some (returning (VArr 0 [VNum 0; VNum 1]))) VUndefined VUndefined.

(** {transitionFn: () => [null, 1]} *)
Definition nullFirst : @rule nat :=
  Rule (Some (returning (VArr 0 [VNull; VNum 1]))) VUndefined VUndefined.

(** {transitionFn: () => { throw err; }, nextState: B, errorState: ERR1} *)
Definition failingRule : @rule nat := Rule (Some (throwing err)) B ERR1.

(** {transitionFn: () => { throw err; }} *)
Definition failingNoErrorState : @rule nat := Rule (Some (throwing err)) VUndefined VUndefined.

(** {transitionFn: () => null, nextState: B} *)
Definition falsyWithStatic : @rule nat := Rule (Some (returning VNull)) B VUndefined.

(** The machine of the test "runFSM advances until stopping state reached". *)
Definition abc : @FSM nat :=
  machine (<[KStr "A" := [Rule (Some (appending "->b")) B VUndefined]]>
             (<[KStr "B" := [Rule (Some (appending "->c")) C VUndefined]]> ∅)) ∅.

(** {transitionFn: () => B} and {transitionFn: () => C} *)
Definition fnB : @rule nat := Rule (Some (returning B)) VUndefined VUndefined.
Definition fnC : @rule nat := Rule (Some (returning C)) VUndefined VUndefined.

(** {transitionFn: (...args) => [B, ...args]} *)
Definition arrayToB : @rule nat := Rule (Some (passthroughTo B)) VUndefined VUndefined.

(** {transitionFn: (...args) => [...args], nextState: B} *)
Definition arrayWithStatic : @rule nat := Rule (Some passthrough) B VUndefined.

(** {transitionFn: () => B, nextState: C} *)
Definition valueWithStatic : @rule nat := Rule (Some (returning B)) C VUndefined.

(** new FSM(A) with the rules [rules] for [A] and no callbacks *)
Definition from_A (rules : list (@rule nat)) : @FSM nat :=
  machine {[ KStr "A" := rules ]} ∅.

(** new FSM(A) with the rule [{nextState: B}] and one handler for [event] *)
Definition hooked (event : string) (fn : @handler nat) : @FSM nat :=
  machine {[ KStr "A" := [toB] ]} {[ KStr event := [fn] ]}.

Definition input123 : list value := [VNum 1; VNum 2; VNum 3].

(** A log of four transitions between [ODD] and [EVEN]. *)
Definition counting : list (gmap string (@field nat)) :=
  [ transitionRecord 1 EVEN ODD fnB [VNum 0] [VNum 1];
    transitionRecord 2 ODD EVEN fnB [VNum 1] [VNum 2];
    transitionRecord 3 EVEN ODD fnB [VNum 2] [VNum 3];
    transitionRecord 4 ODD EVEN fnB [VNum 3] [VNum 4] ].

(** The machine [abc] with the handler of [logTransitions] on the log 0, and
    a world whose heap holds that log, empty. *)
Definition abcLogged : @FSM nat :=
  machine (validTransitions abc) {[ KStr "posttransition" := [logHandler 0] ]}.

Definition world1 : @World nat := set_heap [[]] world0.

(** Handlers of posttransition: one that throws, then the one of the log. *)
Definition failingThenLog : gmap propkey (list (@handler nat)) :=
  {[ KStr "posttransition" := [failing err; logHandler 0] ]}.

(** A log with two arrivals at [B] and a later arrival at [C]. *)
Definition resumable : list (gmap string (@field nat)) :=
  [ transitionRecord 1 A B toB [] [VStr "x"];
    transitionRecord 2 A B toB [] [VStr "y"];
    transitionRecord 3 B C toC [VStr "y"] [VStr "z"] ].

End Examples.

(** ** Invariants of the tables *)

(** What [addTransition] keeps true of the rule table: no own entry is an
    empty list, and every stored rule has a transitionFn or a truthy
    nextState. *)
Definition table_ok {Host : Type} (this : @FSM Host) : Prop :=
  ∀ k l, validTransitions this !! k = Some l →
         l ≠ [] ∧ ∀ r, r ∈ l → well_formed r.

(** ** The reader of paginated results

    The example machine built on the engine: [makeRequest] and
    [parseResponse] do network input and parsing and are host functions
    here. *)

Module ShopifyReader.

Section Reader.

Context {Host : Type} (makeRequest parseResponse : @hostFn Host).

Definition PRE_REQUEST : value := VStr "PRE_REQUEST".
Definition POST_REQUEST : value := VStr "POST_REQUEST".
Definition FINISHED : value := VStr "FINISHED".

(** const STATES = fsm.makeStates("PRE_REQUEST", "POST_REQUEST", "FINISHED"); *)
Definition STATES : option (gmap string value) :=
  makeStates [PRE_REQUEST; POST_REQUEST; FINISHED].

Definition requestRule : @rule Host := Rule (Some makeRequest) POST_REQUEST VUndefined.
Definition responseRule : @rule Host := Rule (Some parseResponse) VUndefined VUndefined.

(** const makeShopifyReaderFSM = () => {
      const srFsm = new fsm.FSM(STATES.PRE_REQUEST);
      srFsm.addTransition(STATES.PRE_REQUEST,
                          {nextState: STATES.POST_REQUEST, transitionFn: makeRequest});
      srFsm.addTransition(STATES.POST_REQUEST, {transitionFn: parseResponse});
      return srFsm; } *)
Definition makeShopifyReaderFSM : completion (@FSM Host) :=
  match addTransition PRE_REQUEST requestRule false (new_FSM PRE_REQUEST) with
  | Fulfilled srFsm => addTransition POST_REQUEST responseRule false srFsm
  | Rejected e => Rejected e
  end.

(** The reader when its current state is [s]. *)
Definition readerIn (s : value) : @FSM Host :=
  {| currentState := s; callbacks := ∅;
     validTransitions :=
       <[KStr "POST_REQUEST" := [responseRule]]>
         (<[KStr "PRE_REQUEST" := [requestRule]]> ∅);
     inTransition := false |}.

End Reader.

End ShopifyReader.

(** * Properties *)

(** ** Equality of values *)

Lemma value_eqb_sound : ∀ a b, value_eqb a b = true → a = b.
Proof.
  fix IH 1.
  intros [ | | x | x | x | i d | r l | r s] [ | | y | y | y | j e | q m | q t];
    simpl; try discriminate; try reflexivity;
    rewrite ?andb_true_iff, ?bool_decide_eq_true.
  - congruence.
  - congruence.
  - congruence.
  - intros [-> ->]. reflexivity.
  - intros [-> Hgo]. f_equal. revert m Hgo.
    induction l as [|x l IHl]; intros [|y m]; try discriminate; [reflexivity|].
    rewrite andb_true_iff. intros [Hx Hm]. f_equal; [apply IH, Hx | apply IHl, Hm].
  - intros [-> ->]. reflexivity.
Qed.

Lemma value_eqb_refl : ∀ a, value_eqb a a = true.
Proof.
  fix IH 1.
  intros [ | | x | x | x | i d | r l | r s]; simpl;
    rewrite ?andb_true_iff, ?bool_decide_eq_true; auto.
  split; [reflexivity|].
  induction l as [|x l IHl]; [reflexivity|].
  rewrite andb_true_iff. split; [apply IH | apply IHl].
Qed.

Lemma value_eqb_eq a b : value_eqb a b = true ↔ a = b.
Proof. split; [apply value_eqb_sound | intros ->; apply value_eqb_refl]. Qed.

(** EVENTS.pretransition and EVENTS.posttransition are the two names. *)
Lemma EVENTS_members :
  ∃ m, EVENTS = Some m ∧
       m !! "pretransition" = Some pretransition ∧
       m !! "posttransition" = Some posttransition.
Proof. eexists. split; [reflexivity|]. split; reflexivity. Qed.

(** ** The structure of [advance] *)

Section Properties.
Context {Host : Type}.
Local Abbreviation object := (gmap string (@field Host)).

Implicit Types (this fsm : @FSM Host) (w : @World Host) (r : @rule Host)
  (vars : @scan_vars Host) (h : Host) (input : list value).

Lemma set_host_id w : set_host (host w) w = w.
Proof. by destruct w. Qed.

Lemma guard_released this :
  inTransition this = false → set_inTransition false (set_inTransition true this) = this.
Proof. destruct this; simpl; by intros ->. Qed.

Lemma commit_guard b this input vars w :
  commit (set_inTransition b this) input vars w = commit this input vars w.
Proof. reflexivity. Qed.

Lemma scan_resolved cands input h vars :
  truthy (scan_nextState vars) = true → scan cands input h vars = (h, vars).
Proof. intros Ht. destruct cands; simpl; [done|]. by rewrite Ht. Qed.

Lemma scan_app l1 l2 input h vars :
  scan (l1 ++ l2) input h vars =
  let '(h', vars') := scan l1 input h vars in scan l2 input h' vars'.
Proof.
  revert h vars. induction l1 as [|r l1 IH]; intros h vars; simpl; [done|].
  destruct (truthy (scan_nextState vars)) eqn:Ht; simpl.
  - by rewrite scan_resolved.
  - destruct (attempt r input h) as [h' vars']. apply IH.
Qed.

Lemma scan_cons r rest input h :
  scan (r :: rest) input h scan_init =
  let '(h', vars) := attempt r input h in scan rest input h' vars.
Proof. reflexivity. Qed.

Lemma advance_scan this input w w1 cands h vars :
  pre_ok this input w w1 →
  candidates this = Some cands →
  scan cands input (host w1) scan_init = (h, vars) →
  advance input this w =
  if truthy (scan_nextState vars) then commit this input vars (set_host h w1)
  else (set_host h w1, set_inTransition true this,
        Rejected (match getLabel (currentState this) with
                  | Some l => FSMError ("No valid transition from state " +:+ l)
                  | None => TypeError
                  end)).
Proof.
  intros [Hin Hpre] Hc Hscan. unfold advance, candidates in *. rewrite Hin.
  cbv zeta. cbn [callbacks currentState validTransitions set_inTransition].
  rewrite Hpre.
  destruct (toPropertyKey (currentState this)) as [k|]; [|done].
  injection Hc as <-.
  destruct (validTransitions this !! k) as [l|]; cbn [from_option id] in Hscan.
  - rewrite Hscan. by destruct (truthy (scan_nextState vars)).
  - cbn [scan] in Hscan. injection Hscan as <- <-. reflexivity.
Qed.

Lemma advance_reaches this input w w1 skipped h r rest h' vars :
  reaches this input w w1 skipped h r rest →
  attempt r input h = (h', vars) →
  truthy (scan_nextState vars) = true →
  advance input this w = commit this input vars (set_host h' w1).
Proof.
  intros (Hpre & Hc & vars0 & Hskip & Hun) Hatt Ht.
  rewrite (advance_scan this input w w1 _ h' vars Hpre Hc); [by rewrite Ht|].
  rewrite scan_app, Hskip. cbn [scan]. rewrite Hun. cbn [negb].
  rewrite Hatt. by apply scan_resolved.
Qed.

Lemma reaches_next this input w w1 skipped h r rest h' vars r' rest' :
  reaches this input w w1 skipped h r rest →
  attempt r input h = (h', vars) →
  truthy (scan_nextState vars) = false →
  rest = r' :: rest' →
  reaches this input w w1 (skipped ++ [r]) h' r' rest'.
Proof.
  intros (Hpre & Hc & vars0 & Hskip & Hun) Hatt Hf ->.
  split; [done|]. split; [by rewrite <- app_assoc|].
  exists vars. split; [|done].
  rewrite scan_app, Hskip. cbn [scan]. by rewrite Hun, Hatt.
Qed.

Lemma tried_all l input h vars h' vars' :
  truthy (scan_nextState vars) = false →
  scan l input h vars = (h', vars') →
  truthy (scan_nextState vars') = false →
  tried l input h vars = l.
Proof.
  revert h vars. induction l as [|r l IH]; intros h vars Hf Hs Hf'; [done|].
  cbn [scan tried] in *. rewrite Hf in *. cbn [negb] in *.
  destruct (attempt r input h) as [h1 v1]. f_equal.
  destruct (truthy (scan_nextState v1)) eqn:Ht.
  - rewrite scan_resolved in Hs by done. injection Hs as <- <-. congruence.
  - by apply (IH h1 v1).
Qed.

Lemma tried_app l1 l2 input h vars :
  tried (l1 ++ l2) input h vars =
  tried l1 input h vars ++
  (let '(h', vars') := scan l1 input h vars in tried l2 input h' vars').
Proof.
  revert h vars. induction l1 as [|r l1 IH]; intros h vars; [done|].
  cbn [app scan tried].
  destruct (truthy (scan_nextState vars)) eqn:Ht; cbn [negb].
  - destruct l2; cbn [tried app]; by rewrite ?Ht.
  - destruct (attempt r input h) as [h1 v1]. cbn [app]. f_equal. apply IH.
Qed.

Lemma tried_resolved l input h vars :
  truthy (scan_nextState vars) = true → tried l input h vars = [].
Proof. intros Ht. destruct l; cbn [tried]; by rewrite ?Ht. Qed.

Lemma tried_prefix l input h vars : tried l input h vars `prefix_of` l.
Proof.
  revert h vars. induction l as [|r l IH]; intros h vars; cbn [tried]; [done|].
  destruct (negb (truthy (scan_nextState vars))); [|apply prefix_nil].
  destruct (attempt r input h) as [h1 v1]. apply prefix_cons, IH.
Qed.

Lemma tried_reaches this input w w1 skipped h r rest h' vars :
  reaches this input w w1 skipped h r rest →
  attempt r input h = (h', vars) →
  truthy (scan_nextState vars) = true →
  tried (skipped ++ r :: rest) input (host w1) scan_init = skipped ++ [r].
Proof.
  intros (Hpre & Hc & vars0 & Hskip & Hun) Hatt Ht.
  rewrite tried_app, Hskip. f_equal.
  - by eapply tried_all.
  - cbn [tried]. rewrite Hun, Hatt. cbn [negb]. f_equal. by apply tried_resolved.
Qed.


(** ** The exits of [advance] *)

Lemma commit_state this input vars w :
  currentState (commit this input vars w).1.2 = scan_nextState vars ∧
  inTransition (commit this input vars w).1.2 = false.
Proof.
  unfold commit. cbv zeta.
  by destruct (callbackHashList _ _ _ _) as [w2 [e|]].
Qed.

(** C7: when the pretransition join of [advance] fails with [e], [advance]
    rejects with [e]; the instance is as it was before the call (the guard
    is false again, the current state and the tables are unchanged) and the
    world is the one the handlers left: no candidate has been attempted. *)
Theorem advance_pretransition_failure this input w w1 e :
  inTransition this = false →
  callbackHashList (callbacks this) pretransition
    (prePayload (currentState this) input) w = (w1, Some e) →
  advance input this w = (w1, this, Rejected e).
Proof.
  intros Hin Hpre. unfold advance. rewrite Hin. cbv zeta.
  cbn [callbacks currentState set_inTransition]. rewrite Hpre.
  by rewrite guard_released.
Qed.

(** C6: once a next state is resolved, [advance] commits it and fires
    posttransition; whether that join fails or not, the instance is left in
    the new state with the guard false.  A failure [e] of the join is the
    rejection of [advance]; otherwise [advance] fulfils with
    [[state, ...output]]. *)
Theorem advance_posttransition_exit this input w w1 cands h vars w2 err :
  pre_ok this input w w1 →
  candidates this = Some cands →
  scan cands input (host w1) scan_init = (h, vars) →
  truthy (scan_nextState vars) = true →
  callbackHashList (callbacks this) posttransition
    (postPayload (currentState this) (scan_nextState vars) (attemptedTransition vars)
       input (transitionOutput vars)) (set_host h w1) = (w2, err) →
  ∃ this',
    advance input this w =
      (w2, this',
       match err with
       | Some e => Rejected e
       | None => Fulfilled (scan_nextState vars :: transitionOutput vars)
       end) ∧
    currentState this' = scan_nextState vars ∧
    inTransition this' = false ∧
    callbacks this' = callbacks this ∧
    validTransitions this' = validTransitions this.
Proof.
  intros Hpre Hc Hscan Ht Hpost.
  rewrite (advance_scan this input w w1 cands h vars Hpre Hc Hscan), Ht.
  unfold commit. cbv zeta. cbn [callbacks currentState set_currentState].
  rewrite Hpost. destruct err as [e|]; eexists; (split; [reflexivity|done]).
Qed.

(** C1, as the code behaves: when the pretransition join succeeds and no
    candidate resolves a next state, [advance] rejects with the FSMError
    "No valid transition from state <label>" and the current state is
    unchanged, but the guard [inTransition] is still true: every later
    [advance] on the instance rejects with "cannot advance while in
    transition". *)
Theorem advance_no_valid_transition this input w w1 cands h vars label :
  pre_ok this input w w1 →
  candidates this = Some cands →
  scan cands input (host w1) scan_init = (h, vars) →
  truthy (scan_nextState vars) = false →
  getLabel (currentState this) = Some label →
  ∃ this',
    advance input this w =
      (set_host h w1, this',
       Rejected (FSMError ("No valid transition from state " +:+ label))) ∧
    currentState this' = currentState this ∧
    inTransition this' = true ∧
    ∀ input' w',
      advance input' this' w' =
        (w', this', Rejected (FSMError "cannot advance while in transition")).
Proof.
  intros Hpre Hc Hscan Hf Hl.
  rewrite (advance_scan this input w w1 cands h vars Hpre Hc Hscan), Hf, Hl.
  eexists. split; [reflexivity|]. repeat split.
Qed.

(** The rule table has no entry for the current state: the scan attempts
    nothing. *)
Lemma candidates_unregistered this k :
  toPropertyKey (currentState this) = Some k →
  validTransitions this !! k = None →
  candidates this = Some [].
Proof. intros Hk Hn. unfold candidates. by rewrite Hk, Hn. Qed.

(** ** The candidate scan *)

Lemma attempt_attempted r input h :
  attemptedTransition (attempt r input h).2 = Some r.
Proof.
  unfold attempt, invokePromiseFn. destruct (transitionFn r) as [fn|]; [|done].
  destruct (fn input h) as [h' [v|e]]; [|done].
  destruct (truthy v); [|done].
  destruct v; by destruct (negb (truthy (nextState r))).
Qed.

Lemma attempt_throws r input h fn h' e :
  transitionFn r = Some fn →
  fn input h = (h', Throws e) →
  attempt r input h =
    (h', {| scan_nextState := if truthy (errorState r) then errorState r else ERROR;
            attemptedTransition := Some r;
            transitionOutput := [e] |}).
Proof. intros Hfn He. unfold attempt, invokePromiseFn. by rewrite Hfn, He. Qed.

Lemma attempt_returns_falsy r input h fn h' v :
  transitionFn r = Some fn →
  fn input h = (h', Returns v) →
  truthy v = false →
  attempt r input h =
    (h', {| scan_nextState := nextState r;
            attemptedTransition := Some r;
            transitionOutput := [] |}).
Proof. intros Hfn Hv Hf. unfold attempt, invokePromiseFn. by rewrite Hfn, Hv, Hf. Qed.

Lemma errorState_or_ERROR_truthy (s : value) :
  truthy (if truthy s then s else ERROR) = true.
Proof. by destruct (truthy s) eqn:Hs. Qed.

(** C3, amended: the candidate [r] reached by the scan of [advance] leaves
    the next state unresolved, so that the next candidate in priority order
    is tried, exactly when it declares no static nextState and its
    transitionFn returns, without throwing, a falsy value or an array whose
    first element is falsy or missing.  When the transitionFn throws or
    rejects with [e], the scan ends at [r]: of the candidates exactly those
    up to [r] have been attempted, and [advance] commits the rule's
    errorState if declared, [ERROR] otherwise, with the output [[e]]. *)
Theorem scan_next_candidate_and_error_route this input w w1 skipped h r rest :
  reaches this input w w1 skipped h r rest →
  well_formed r →
  (advances_scan r input h ↔
   truthy (nextState r) = false ∧
   ∃ fn h' v, transitionFn r = Some fn ∧ fn input h = (h', Returns v) ∧
     (truthy v = false ∨
      ∃ ref elems, v = VArr ref elems ∧ truthy (hd VUndefined elems) = false)) ∧
  (advances_scan r input h →
   ∀ r' rest', rest = r' :: rest' →
     reaches this input w w1 (skipped ++ [r]) (attempt r input h).1 r' rest') ∧
  (∀ fn h' e, transitionFn r = Some fn → fn input h = (h', Throws e) →
     let errorRoute := if truthy (errorState r) then errorState r else ERROR in
     advance input this w =
       commit this input
         {| scan_nextState := errorRoute; attemptedTransition := Some r;
            transitionOutput := [e] |} (set_host h' w1) ∧
     tried (skipped ++ r :: rest) input (host w1) scan_init = skipped ++ [r]).
Proof.
  intros Hreach Hwf. split; [|split].
  - unfold advances_scan, attempt, invokePromiseFn. split.
    + destruct (transitionFn r) as [fn|] eqn:Hfn.
      * destruct (fn input h) as [h' [v|e]] eqn:Hv; cbn [snd scan_nextState].
        -- destruct (truthy v) eqn:Htv.
           ++ destruct (truthy (nextState r)) eqn:Hns.
              ** destruct v; cbn [negb snd scan_nextState]; congruence.
              ** destruct v; cbn [negb snd scan_nextState]; try congruence.
                 intros Hhd. split; [done|]. exists fn, h', (VArr ref elems).
                 do 2 (split; [done|]). right. by exists ref, elems.
           ++ cbn [snd scan_nextState]. intros Hns. split; [done|].
              exists fn, h', v. do 2 (split; [done|]). by left.
        -- by rewrite errorState_or_ERROR_truthy.
      * cbn [snd scan_nextState]. intros Hns.
        destruct Hwf as [[fn Hfn']|Hwf]; congruence.
    + intros (Hns & fn & h' & v & -> & -> & Hv). rewrite Hns. cbn [negb].
      destruct Hv as [Hv|(ref & elems & -> & Hhd)].
      * by rewrite Hv.
      * done.
  - intros Hadv r' rest' Hrest.
    eapply reaches_next; [done| |done|done].
    by destruct (attempt r input h).
  - intros fn h' e Hfn He errorRoute.
    pose proof (attempt_throws r input h fn h' e Hfn He) as Hatt.
    split.
    + eapply advance_reaches; [done|done|]. apply errorState_or_ERROR_truthy.
    + eapply tried_reaches; [done|done|]. apply errorState_or_ERROR_truthy.
Qed.

(** C4, amended: the candidate [r] reached by the scan of [advance] has a
    transitionFn that returns a truthy [R].  If [R] is an array and no
    static nextState is declared, the candidate's next state is the first
    element of [R] and its output the remaining elements, and [advance]
    commits them when that first element is truthy; if [R] is an array and
    a static nextState is declared, [advance] commits that state with the
    elements of [R] as output; if [R] is not an array and no static
    nextState is declared, [advance] commits [R] with the empty output; if
    [R] is not an array and a static nextState is declared, [advance]
    commits that state with the output [[R]]. *)
Theorem advance_result_shapes this input w w1 skipped h r rest fn h' R :
  reaches this input w w1 skipped h r rest →
  transitionFn r = Some fn →
  fn input h = (h', Returns R) →
  truthy R = true →
  (∀ ref elems, R = VArr ref elems → truthy (nextState r) = false →
     attempt r input h =
       (h', {| scan_nextState := hd VUndefined elems; attemptedTransition := Some r;
               transitionOutput := tl elems |}) ∧
     (truthy (hd VUndefined elems) = true →
      advance input this w =
        commit this input
          {| scan_nextState := hd VUndefined elems; attemptedTransition := Some r;
             transitionOutput := tl elems |} (set_host h' w1))) ∧
  (∀ ref elems, R = VArr ref elems → truthy (nextState r) = true →
     advance input this w =
       commit this input
         {| scan_nextState := nextState r; attemptedTransition := Some r;
            transitionOutput := elems |} (set_host h' w1)) ∧
  (isArray R = false → truthy (nextState r) = false →
     advance input this w =
       commit this input
         {| scan_nextState := R; attemptedTransition := Some r;
            transitionOutput := [] |} (set_host h' w1)) ∧
  (isArray R = false → truthy (nextState r) = true →
     advance input this w =
       commit this input
         {| scan_nextState := nextState r; attemptedTransition := Some r;
            transitionOutput := [R] |} (set_host h' w1)).
Proof.
  intros Hreach Hfn HR Ht.
  assert (Hatt : ∀ vars,
    attempt r input h = (h', vars) → truthy (scan_nextState vars) = true →
    advance input this w = commit this input vars (set_host h' w1))
    by (intros; by eapply advance_reaches).
  split; [|split; [|split]].
  - intros ref elems -> Hns.
    assert (attempt r input h =
              (h', {| scan_nextState := hd VUndefined elems;
                      attemptedTransition := Some r;
                      transitionOutput := tl elems |})) as Ha.
    { unfold attempt, invokePromiseFn. rewrite Hfn, HR. cbn [truthy]. by rewrite Hns. }
    split; [done|]. intros Hhd. by apply Hatt.
  - intros ref elems -> Hns. apply Hatt; [|done].
    unfold attempt, invokePromiseFn. rewrite Hfn, HR. cbn [truthy]. by rewrite Hns.
  - intros Harr Hns. apply Hatt; [|done].
    unfold attempt, invokePromiseFn. rewrite Hfn, HR, Ht, Hns. by destruct R.
  - intros Harr Hns. apply Hatt; [|done].
    unfold attempt, invokePromiseFn. rewrite Hfn, HR, Ht, Hns. by destruct R.
Qed.

(** C10: the candidate [r] reached by the scan of [advance] declares a
    static nextState and has a transitionFn that returns a falsy value
    without throwing.  [advance] commits the static nextState with the empty
    output; the scan ends at [r], and of the candidates exactly those up to
    [r] have been attempted. *)
Theorem advance_static_nextState_falsy_result this input w w1 skipped h r rest fn h' v :
  reaches this input w w1 skipped h r rest →
  transitionFn r = Some fn →
  truthy (nextState r) = true →
  fn input h = (h', Returns v) →
  truthy v = false →
  advance input this w =
    commit this input
      {| scan_nextState := nextState r; attemptedTransition := Some r;
         transitionOutput := [] |} (set_host h' w1) ∧
  ¬ advances_scan r input h ∧
  tried (skipped ++ r :: rest) input (host w1) scan_init = skipped ++ [r].
Proof.
  intros Hreach Hfn Hns Hv Hf.
  pose proof (attempt_returns_falsy r input h fn h' v Hfn Hv Hf) as Hatt.
  split; [|split].
  - by eapply advance_reaches.
  - unfold advances_scan. rewrite Hatt. cbn [snd scan_nextState]. congruence.
  - by eapply tried_reaches.
Qed.

(** ** The transition table *)

Lemma saveToHashList_lookup {A : Type} (hashList hashList' : gmap propkey (list A))
    (key : value) (x : A) (prepend : bool) :
  saveToHashList hashList key x prepend = Some hashList' →
  ∃ k, toPropertyKey key = Some k ∧
    hashList' !! k =
      Some (if prepend then x :: default [] (hashList !! k)
            else default [] (hashList !! k) ++ [x]) ∧
    ∀ k', k' ≠ k → hashList' !! k' = hashList !! k'.
Proof.
  unfold saveToHashList. destruct (toPropertyKey key) as [k|]; [|done].
  intros Hsave. exists k. split; [done|].
  destruct (hashList !! k) as [l|] eqn:Hl.
  - injection Hsave as <-. split; [by rewrite lookup_insert_eq|].
    intros k' Hne. by rewrite lookup_insert_ne.
  - destruct (inherited k); [done|]. injection Hsave as <-.
    split; [rewrite lookup_insert_eq; by destruct prepend|].
    intros k' Hne. by rewrite lookup_insert_ne.
Qed.

Lemma addTransition_table startingState r prepend this this' :
  addTransition startingState r prepend this = Fulfilled this' →
  currentState this' = currentState this ∧
  ∃ k, toPropertyKey startingState = Some k ∧
    validTransitions this' !! k =
      Some (if prepend then r :: default [] (validTransitions this !! k)
            else default [] (validTransitions this !! k) ++ [r]) ∧
    ∀ k', k' ≠ k → validTransitions this' !! k' = validTransitions this !! k'.
Proof.
  unfold addTransition.
  destruct (negb (bool_decide (is_Some (transitionFn r))) && negb (truthy (nextState r)));
    [done|].
  destruct (saveToHashList _ _ _ _) as [vt|] eqn:Hsave; [|done].
  intros [= <-]. split; [done|]. by apply saveToHashList_lookup.
Qed.

Lemma addTransition_keeps startingState r' prepend this this' k l r :
  addTransition startingState r' prepend this = Fulfilled this' →
  validTransitions this !! k = Some l →
  r ∈ l →
  ∃ l', validTransitions this' !! k = Some l' ∧ r ∈ l'.
Proof.
  intros Hadd Hl Hin.
  destruct (addTransition_table _ _ _ _ _ Hadd) as (_ & k0 & _ & Hk0 & Hother).
  destruct (decide (k = k0)) as [->|Hne].
  - rewrite Hk0, Hl. cbn [from_option id]. eexists. split; [done|].
    destruct prepend; set_solver.
  - exists l. by rewrite Hother.
Qed.

Lemma addTransitions_rejected registrations e :
  foldl (λ (acc : completion (@FSM Host)) (reg : value * rule * bool),
           match acc with
           | Fulfilled fsm => addTransition reg.1.1 reg.1.2 reg.2 fsm
           | Rejected e => Rejected e
           end) (Rejected e) registrations = Rejected e.
Proof. by induction registrations. Qed.

Lemma addTransitions_keeps registrations this this' k l r :
  addTransitions registrations this = Fulfilled this' →
  validTransitions this !! k = Some l →
  r ∈ l →
  ∃ l', validTransitions this' !! k = Some l' ∧ r ∈ l'.
Proof.
  unfold addTransitions. revert this l.
  induction registrations as [|[[s r'] p] regs IH]; intros this l Hadd Hl Hin.
  - injection Hadd as <-. by exists l.
  - cbn [foldl fst snd] in Hadd.
    destruct (addTransition s r' p this) as [this1|e] eqn:H1.
    + destruct (addTransition_keeps _ _ _ _ _ _ _ _ H1 Hl Hin) as (l1 & Hl1 & Hin1).
      by eapply IH.
    + by rewrite addTransitions_rejected in Hadd.
Qed.

(** C5: a rule [r1] is registered for a starting state and later, after
    any further registrations, a rule [r2] for the same state; an engine
    with that table is in the starting state and [advance] has passed its
    pretransition join.  With prepend=true the later rule [r2] is attempted
    first, in the host state the join left: when it resolves a next state,
    [advance] commits its result, and [r1] and the other rules are attempted
    only after [r2] has left the next state unresolved.  Without prepend,
    [r2] is attempted last: the rules registered before it, [r1] among
    them, are attempted first, [advance] commits the result of [r1] when
    [r1] resolves, and [r2] is attempted only when [r1] and all the others
    have left the next state unresolved. *)
Theorem candidate_priority startingState r1 prepend1 between r2 prepend
    this0 this1 this1' this2 :
  addTransition startingState r1 prepend1 this0 = Fulfilled this1 →
  addTransitions between this1 = Fulfilled this1' →
  addTransition startingState r2 prepend this1' = Fulfilled this2 →
  ∃ k before after,
    toPropertyKey startingState = Some k ∧
    validTransitions this1' !! k = Some (before ++ r1 :: after) ∧
    let cands :=
      if prepend then r2 :: before ++ r1 :: after else before ++ r1 :: after ++ [r2] in
    validTransitions this2 !! k = Some cands ∧
    ∀ this input w w1,
      validTransitions this = validTransitions this2 →
      currentState this = startingState →
      pre_ok this input w w1 →
      (∀ h vars,
         scan cands input (host w1) scan_init = (h, vars) →
         advance input this w =
           if truthy (scan_nextState vars) then commit this input vars (set_host h w1)
           else (set_host h w1, set_inTransition true this,
                 Rejected (match getLabel (currentState this) with
                           | Some l => FSMError ("No valid transition from state " +:+ l)
                           | None => TypeError
                           end))) ∧
      scan cands input (host w1) scan_init =
        (if prepend then
           let '(h2, v2) := attempt r2 input (host w1) in
           if truthy (scan_nextState v2) then (h2, v2) else
           let '(hb, vb) := scan before input h2 v2 in
           if truthy (scan_nextState vb) then (hb, vb) else
           let '(h1, v1) := attempt r1 input hb in
           if truthy (scan_nextState v1) then (h1, v1) else
           scan after input h1 v1
         else
           let '(hb, vb) := scan before input (host w1) scan_init in
           if truthy (scan_nextState vb) then (hb, vb) else
           let '(h1, v1) := attempt r1 input hb in
           if truthy (scan_nextState v1) then (h1, v1) else
           let '(ha, va) := scan after input h1 v1 in
           if truthy (scan_nextState va) then (ha, va) else
           attempt r2 input ha) ∧
      (if prepend then
         ∀ h2 v2,
           attempt r2 input (host w1) = (h2, v2) →
           truthy (scan_nextState v2) = true →
           advance input this w = commit this input v2 (set_host h2 w1)
       else
         ∀ hb vb h1 v1,
           scan before input (host w1) scan_init = (hb, vb) →
           truthy (scan_nextState vb) = false →
           attempt r1 input hb = (h1, v1) →
           truthy (scan_nextState v1) = true →
           advance input this w = commit this input v1 (set_host h1 w1)).
Proof.
  intros H1 Hbetween H2.
  destruct (addTransition_table _ _ _ _ _ H1) as (_ & k & Hk & Hl1 & _).
  assert (∃ l, validTransitions this1' !! k = Some l ∧ r1 ∈ l) as (l & Hl & Hin).
  { eapply addTransitions_keeps; [done|done|]. destruct prepend1; set_solver. }
  apply list_elem_of_split in Hin as (before & after & ->).
  destruct (addTransition_table _ _ _ _ _ H2) as (_ & k2 & Hk2 & Hl2 & _).
  assert (k2 = k) as -> by congruence.
  rewrite Hl in Hl2. cbn [from_option id] in Hl2.
  exists k, before, after. do 2 (split; [done|]). cbv zeta.
  split; [by destruct prepend; rewrite Hl2, <- ?app_assoc|].
  intros this input w w1 Hvt Hcur Hpre.
  set (cands := if prepend then r2 :: before ++ r1 :: after
                else before ++ r1 :: after ++ [r2]).
  assert (candidates this = Some cands) as Hc.
  { unfold candidates. rewrite Hcur, Hk, Hvt, Hl2. cbn [from_option id].
    unfold cands. by destruct prepend; rewrite <- ?app_assoc. }
  assert (Hadv : ∀ h vars,
    scan cands input (host w1) scan_init = (h, vars) →
    advance input this w =
      if truthy (scan_nextState vars) then commit this input vars (set_host h w1)
      else (set_host h w1, set_inTransition true this,
            Rejected (match getLabel (currentState this) with
                      | Some l => FSMError ("No valid transition from state " +:+ l)
                      | None => TypeError
                      end)))
    by (intros h vars Hscan; by apply (advance_scan this input w w1 cands)).
  assert (Hstep : ∀ r rest h vars,
    truthy (scan_nextState vars) = false →
    scan (r :: rest) input h vars =
      let '(h', vars') := attempt r input h in
      if truthy (scan_nextState vars') then (h', vars') else scan rest input h' vars').
  { intros r rest h vars Hf. cbn [scan]. rewrite Hf. cbn [negb].
    destruct (attempt r input h) as [h' vars'].
    destruct (truthy (scan_nextState vars')) eqn:Ht; [by apply scan_resolved|done]. }
  assert (Happ : ∀ l1 l2 h vars,
    scan (l1 ++ l2) input h vars =
      let '(h', vars') := scan l1 input h vars in
      if truthy (scan_nextState vars') then (h', vars') else scan l2 input h' vars').
  { intros l1 l2 h vars. rewrite scan_app. destruct (scan l1 input h vars) as [h' vars'].
    destruct (truthy (scan_nextState vars')) eqn:Ht; [by apply scan_resolved|done]. }
  assert (Hscan : scan cands input (host w1) scan_init =
    (if prepend then
       let '(h2, v2) := attempt r2 input (host w1) in
       if truthy (scan_nextState v2) then (h2, v2) else
       let '(hb, vb) := scan before input h2 v2 in
       if truthy (scan_nextState vb) then (hb, vb) else
       let '(h1, v1) := attempt r1 input hb in
       if truthy (scan_nextState v1) then (h1, v1) else
       scan after input h1 v1
     else
       let '(hb, vb) := scan before input (host w1) scan_init in
       if truthy (scan_nextState vb) then (hb, vb) else
       let '(h1, v1) := attempt r1 input hb in
       if truthy (scan_nextState v1) then (h1, v1) else
       let '(ha, va) := scan after input h1 v1 in
       if truthy (scan_nextState va) then (ha, va) else
       attempt r2 input ha)).
  { unfold cands. destruct prepend.
    - rewrite Hstep by done. destruct (attempt r2 input (host w1)) as [h2 v2].
      destruct (truthy (scan_nextState v2)) eqn:Ht2; [done|].
      rewrite Happ. destruct (scan before input h2 v2) as [hb vb].
      destruct (truthy (scan_nextState vb)) eqn:Htb; [done|].
      by rewrite Hstep.
    - rewrite Happ. destruct (scan before input (host w1) scan_init) as [hb vb].
      destruct (truthy (scan_nextState vb)) eqn:Htb; [done|].
      rewrite Hstep by done. destruct (attempt r1 input hb) as [h1 v1].
      destruct (truthy (scan_nextState v1)) eqn:Ht1; [done|].
      rewrite Happ. destruct (scan after input h1 v1) as [ha va].
      destruct (truthy (scan_nextState va)) eqn:Hta; [done|].
      rewrite Hstep by done. destruct (attempt r2 input ha) as [h2 v2].
      by destruct (truthy (scan_nextState v2)). }
  split; [exact Hadv|]. split; [exact Hscan|].
  destruct prepend.
  - intros h2 v2 Hatt Ht. rewrite (Hadv h2 v2); [by rewrite Ht|].
    by rewrite Hscan, Hatt, Ht.
  - intros hb vb h1 v1 Hb Hfb Hatt Ht. rewrite (Hadv h1 v1); [by rewrite Ht|].
    by rewrite Hscan, Hb, Hfb, Hatt, Ht.
Qed.

(** ** Resumption *)

Lemma field_is_eq (f : @field Host) (v : value) : field_is f v = true ↔ f = FValue v.
Proof.
  destruct f; cbn [field_is]; [|done..].
  rewrite value_eqb_eq. split; congruence.
Qed.

Lemma filter_none {A : Type} (P : A → Prop) `{∀ x, Decision (P x)} (l : list A) :
  Forall (λ x, ¬ P x) l → filter P l = [].
Proof.
  induction 1 as [|x l Hx _ IH]; [done|].
  by rewrite filter_cons_False.
Qed.

Lemma resumeArgs_found (older newer : list object) t out resumeState :
  member "to" t = FValue resumeState →
  member "output" t = FArray out →
  Forall (λ u, member "to" u ≠ FValue resumeState) newer →
  resumeArgs (older ++ t :: newer) resumeState = FArray out.
Proof.
  intros Hto Hout Hnewer. unfold resumeArgs.
  rewrite reverse_app, reverse_cons, <- app_assoc, filter_app.
  rewrite filter_none.
  - cbn [app]. rewrite filter_cons_True by by apply field_is_eq.
    cbn [head from_option id]. by rewrite Hout.
  - apply Forall_reverse. eapply Forall_impl; [done|].
    intros u Hu. by rewrite field_is_eq.
Qed.

Lemma resumeArgs_missing (log : list object) resumeState :
  Forall (λ u, member "to" u ≠ FValue resumeState) log →
  resumeArgs log resumeState = FArray [].
Proof.
  intros Hlog. unfold resumeArgs. rewrite filter_none; [done|].
  apply Forall_reverse. eapply Forall_impl; [done|].
  intros u Hu. by rewrite field_is_eq.
Qed.

(** C8: [rerunFSM] takes as arguments the output sequence of the most
    recent record of the log whose [to] is the resume state (the last such
    record of the chronological log), the empty sequence when the log has
    no such record; it sets [currentState] to the resume state directly,
    without a transition (handlers, rule table, guard and world are as
    they were, no handler and no transition function is called), and then
    is the run driver called on that engine with those arguments. *)
Theorem rerunFSM_resumes fuel fsm resumeState finalStates
    (log : list object) w :
  ∃ resumed,
    currentState resumed = resumeState ∧
    callbacks resumed = callbacks fsm ∧
    validTransitions resumed = validTransitions fsm ∧
    inTransition resumed = inTransition fsm ∧
    (∀ older t newer out,
       log = older ++ t :: newer →
       member "to" t = FValue resumeState →
       member "output" t = FArray out →
       Forall (λ u, member "to" u ≠ FValue resumeState) newer →
       rerunFSM fuel fsm resumeState finalStates log w =
         runFSM fuel resumed finalStates out w) ∧
    (Forall (λ u, member "to" u ≠ FValue resumeState) log →
     rerunFSM fuel fsm resumeState finalStates log w =
       runFSM fuel resumed finalStates [] w).
Proof.
  exists {| currentState := resumeState; callbacks := callbacks fsm;
            validTransitions := validTransitions fsm;
            inTransition := inTransition fsm |}.
  do 4 (split; [reflexivity|]). split.
  - intros older t newer out -> Hto Hout Hnewer. unfold rerunFSM. cbv zeta.
    by rewrite (resumeArgs_found older newer t out).
  - intros Hlog. unfold rerunFSM. cbv zeta. by rewrite resumeArgs_missing.
Qed.

(** ** The transition log *)

Lemma postPayload_record time from to r input output :
  postPayload from to (Some r) input output ∪ <["time" := FDate time]> ∅ =
  transitionRecord time from to r input output.
Proof. reflexivity. Qed.

Lemma on_registers eventName callback this this' :
  on eventName callback this = Some this' →
  currentState this' = currentState this ∧
  validTransitions this' = validTransitions this ∧
  inTransition this' = inTransition this ∧
  ∃ k, toPropertyKey eventName = Some k ∧
    callbacks this' !! k = Some (default [] (callbacks this !! k) ++ [callback]).
Proof.
  unfold on. destruct (saveToHashList _ _ _ _) as [cbs|] eqn:Hsave; [|done].
  intros [= <-]. do 3 (split; [done|]).
  destruct (saveToHashList_lookup _ _ _ _ _ Hsave) as (k & Hk & Hl & _).
  by exists k.
Qed.

Lemma logTransitions_registers this0 transitionLog w0 w0' this a :
  logTransitions this0 transitionLog w0 = Some (w0', this, a) →
  callbacks this !! KStr "posttransition" =
    Some (default [] (callbacks this0 !! KStr "posttransition") ++ [logHandler a]) ∧
  currentState this = currentState this0 ∧
  validTransitions this = validTransitions this0 ∧
  inTransition this = inTransition this0.
Proof.
  unfold logTransitions. destruct transitionLog as [a'|].
  - destruct (on posttransition (logHandler a') this0) as [fsm|] eqn:Hon; [|done].
    intros [= <- <- <-].
    destruct (on_registers _ _ _ _ Hon) as (? & ? & ? & k & [= <-] & Hl). done.
  - destruct (on posttransition (logHandler (length (heap w0))) this0) as [fsm|] eqn:Hon;
      [|done].
    intros [= <- <- <-].
    destruct (on_registers _ _ _ _ Hon) as (? & ? & ? & k & [= <-] & Hl). done.
Qed.

Lemma logHandler_appends a (payload : object) w :
  logHandler a payload w =
    (set_heap (alter (λ l, l ++ [payload ∪ <["time" := FDate (clock w)]> ∅]) a (heap w)) w,
     Returns (VNum (Z.of_nat (length
       (default [] (alter (λ l, l ++ [payload ∪ <["time" := FDate (clock w)]> ∅]) a (heap w)
                    !! a)))))).
Proof. reflexivity. Qed.

(** C9, amended: the posttransition payload of [advance] is
    [{from, to, transition, input, output}]: it carries the matched rule
    under the key [transition] and has no member [rule].  The handler
    registered by [logTransitions] appends to its log the payload it is
    called with, extended by [time]; after a transition of an engine whose
    only posttransition handler it is, the log is longer by the one record
    [{time, from, to, transition, input, output}], with [from] the state
    before the transition, [to] the committed state, [transition] the
    matched rule and [input], [output] the sequences of the transition. *)
Theorem logTransitions_record this0 transitionLog w0 w0' this a
    input w w1 skipped h r rest h' vars :
  logTransitions this0 transitionLog w0 = Some (w0', this, a) →
  reaches this input w w1 skipped h r rest →
  attempt r input h = (h', vars) →
  truthy (scan_nextState vars) = true →
  let payload : object :=
    list_to_map [("from", FValue (currentState this));
                 ("to", FValue (scan_nextState vars));
                 ("transition", FRule r);
                 ("input", FArray input);
                 ("output", FArray (transitionOutput vars))] in
  advance input this w =
    (let '(w2, err) :=
       callbackHashList (callbacks this) posttransition payload (set_host h' w1) in
     (w2, set_inTransition false (set_currentState (scan_nextState vars) this),
      match err with
      | Some e => Rejected e
      | None => Fulfilled (scan_nextState vars :: transitionOutput vars)
      end)) ∧
  payload !! "transition" = Some (FRule r) ∧
  payload !! "rule" = None ∧
  (∀ w', heap (logHandler a payload w').1 =
         alter (λ l, l ++ [transitionRecord (clock w') (currentState this)
                             (scan_nextState vars) r input (transitionOutput vars)])
           a (heap w')) ∧
  (∀ log,
     callbacks this0 !! KStr "posttransition" = None →
     heap w1 !! a = Some log →
     ∃ w2 this',
       advance input this w =
         (w2, this', Fulfilled (scan_nextState vars :: transitionOutput vars)) ∧
       heap w2 !! a =
         Some (log ++ [transitionRecord (clock w1) (currentState this)
                         (scan_nextState vars) r input (transitionOutput vars)])).
Proof.
  intros Hlog Hreach Hatt Ht payload.
  pose proof (attempt_attempted r input h) as Hr. rewrite Hatt in Hr. cbn [snd] in Hr.
  assert (Hadv : advance input this w = commit this input vars (set_host h' w1))
    by by eapply advance_reaches.
  assert (Hpay : postPayload (currentState this) (scan_nextState vars)
                   (attemptedTransition vars) input (transitionOutput vars) = payload)
    by by rewrite Hr.
  split; [|split; [|split; [|split]]].
  - rewrite Hadv. unfold commit. cbv zeta.
    cbn [callbacks currentState set_currentState]. rewrite Hpay.
    by destruct (callbackHashList _ _ _ _) as [w2 [e|]].
  - reflexivity.
  - reflexivity.
  - intros w'. rewrite logHandler_appends. reflexivity.
  - intros log Hnone Hheap.
    destruct (logTransitions_registers _ _ _ _ _ _ Hlog) as (Hcb & _).
    rewrite Hnone in Hcb. cbn [from_option id app] in Hcb.
    rewrite Hadv. unfold commit. cbv zeta.
    cbn [callbacks currentState set_currentState]. rewrite Hpay.
    unfold callbackHashList. cbn [posttransition toPropertyKey toString fmap option_fmap option_map].
    rewrite Hcb. cbn [foldl fst snd]. unfold invokePromiseFn.
    rewrite logHandler_appends. do 2 eexists. split; [reflexivity|].
    cbn [heap set_heap set_host]. rewrite list_lookup_alter_eq, Hheap. reflexivity.
Qed.

(** ** The run driver *)

Lemma advance_fulfilled_shape input this w w' this' result :
  advance input this w = (w', this', Fulfilled result) →
  result = hd VUndefined result :: tl result.
Proof.
  unfold advance. destruct (inTransition this); [done|]. cbv zeta.
  destruct (callbackHashList _ _ _ _) as [w1 [e|]]; [done|].
  destruct (toPropertyKey _) as [k|]; [|done].
  destruct (match validTransitions _ !! k with Some _ => _ | None => _ end) as [h vars].
  destruct (negb _); [done|]. unfold commit. cbv zeta.
  destruct (callbackHashList _ _ _ _) as [w2 [e|]]; [done|].
  by intros [= <- <- <-].
Qed.

Lemma runFSM_loop_final fuel finals ns args result fsm w :
  includes finals ns = true →
  runFSM_loop fuel finals ns args result fsm w = (w, fsm, Some (Fulfilled result)).
Proof. intros Hin. destruct fuel; cbn [runFSM_loop]; by rewrite Hin. Qed.

Lemma runFSM_loop_iterate finals n :
  ∀ fuel ns args result fsm w w' fsm' s out,
    iterate n ns args fsm w = Some (w', fsm', s, out) →
    includes finals s = true →
    (∀ m x, (m < n)%nat → iterate m ns args fsm w = Some x →
            includes finals x.1.2 = false) →
    (n ≤ fuel)%nat →
    runFSM_loop fuel finals ns args result fsm w =
      (w', fsm',
       Some (Fulfilled (match n with O => result | S _ => Some (s :: out) end))).
Proof.
  induction n as [|n IH]; intros fuel ns args result fsm w w' fsm' s out Hit Hin Hbefore Hfuel.
  - injection Hit as <- <- <- <-. by apply runFSM_loop_final.
  - destruct fuel as [|fuel]; [lia|].
    pose proof (Hbefore O (w, fsm, ns, args) ltac:(lia) eq_refl) as Hns.
    cbn [fst snd] in Hns. cbn [runFSM_loop iterate] in *. rewrite Hns.
    destruct (advance args fsm w) as [[w1 fsm1] [r|e]] eqn:Hadv; [|done].
    rewrite (IH fuel _ _ (Some r) fsm1 w1 w' fsm' s out Hit Hin); [|..|lia].
    + destruct n; [|done]. injection Hit as <- <- <- <-.
      by rewrite <- (advance_fulfilled_shape _ _ _ _ _ _ Hadv).
    + intros m x Hm Hx. apply (Hbefore (S m) x); [lia|].
      cbn [iterate]. by rewrite Hadv.
Qed.

(** C2, amended: [runFSM] takes an array of final states as it is and
    turns a single state into the list of that state and [ERROR]; it calls
    [advance] again and again, each call fed the output of the one before.
    If these calls are fulfilled up to call [n+1], the state of that call
    is in the list and no loop state before it is (the initial [undefined]
    included), then [runFSM] terminates after these [n+1] calls, whatever
    fuel above that it is given, and returns the [[state, ...output]] of
    the last call. *)
Theorem runFSM_terminates fuel n fsm finalStates args w w' fsm' s out :
  iterate (S n) VUndefined args fsm w = Some (w', fsm', s, out) →
  includes (normalizeFinalStates finalStates) s = true →
  (∀ m s', (m ≤ n)%nat → state_after m args fsm w = Some s' →
           includes (normalizeFinalStates finalStates) s' = false) →
  (S n ≤ fuel)%nat →
  runFSM fuel fsm finalStates args w = (w', fsm', Some (Fulfilled (Some (s :: out)))) ∧
  (isArray finalStates = false →
   normalizeFinalStates finalStates = [finalStates; ERROR]) ∧
  (∀ ref elems, finalStates = VArr ref elems →
   normalizeFinalStates finalStates = elems).
Proof.
  intros Hit Hin Hbefore Hfuel. split; [|split].
  - unfold runFSM.
    rewrite (runFSM_loop_iterate _ (S n) fuel _ _ None fsm w w' fsm' s out Hit Hin);
      [done| |done].
    intros m x Hm Hx. apply (Hbefore m); [lia|].
    unfold state_after. by rewrite Hx.
  - by destruct finalStates.
  - by intros ref elems ->.
Qed.

End Properties.

(** * The statements on the example machines *)

Import Examples.

Lemma reaches_first (this : @FSM nat) input w r rest :
  pre_ok this input w w →
  candidates this = Some (r :: rest) →
  reaches this input w w [] (host w) r rest.
Proof.
  intros Hpre Hc. split; [done|]. split; [done|]. by exists scan_init.
Defined.

Lemma advance_no_valid_transition_witness :
  ∃ this',
    advance [] (new_FSM VUndefined) world0 =
      (world0, this', Rejected (FSMError "No valid transition from state EMPTY")) ∧
    currentState this' = EMPTY ∧
    inTransition this' = true.
Proof.
  destruct (advance_no_valid_transition (new_FSM VUndefined) [] world0 world0 []
              0%nat scan_init "EMPTY")
    as (this' & Hadv & Hcur & Hin & _).
  - split; reflexivity.
  - reflexivity.
  - reflexivity.
  - reflexivity.
  - reflexivity.
  - exists this'. split; [exact Hadv|]. split; [exact Hcur | exact Hin].
Defined.

Lemma advance_pretransition_failure_witness :
  advance [] (hooked "pretransition" (failing err)) world0 =
    (world0, hooked "pretransition" (failing err), Rejected (Thrown err)).
Proof.
  apply (advance_pretransition_failure (hooked "pretransition" (failing err)) []
           world0 world0 (Thrown err)); reflexivity.
Defined.

Lemma advance_posttransition_exit_witness :
  ∃ this',
    advance [] (hooked "posttransition" (failing err)) world0 =
      (world0, this', Rejected (Thrown err)) ∧
    currentState this' = B ∧
    inTransition this' = false.
Proof.
  destruct (advance_posttransition_exit (hooked "posttransition" (failing err)) []
              world0 world0 [toB] 0%nat
              {| scan_nextState := B; attemptedTransition := Some toB;
                 transitionOutput := [] |}
              world0 (Some (Thrown err)))
    as (this' & Hadv & Hcur & Hin & _).
  - split; reflexivity.
  - reflexivity.
  - reflexivity.
  - reflexivity.
  - reflexivity.
  - exists this'. split; [exact Hadv|]. split; [exact Hcur | exact Hin].
Defined.

Lemma pre_ok_from_A rules input : pre_ok (from_A rules) input world0 world0.
Proof. split; reflexivity. Defined.

(** C3, as the specification states it, fails: a transitionFn that returns
    the truthy array [[null, 1]] leaves the next state unresolved, and
    [advance] goes on to the next candidate. *)
Lemma truthy_result_advances_scan :
  advances_scan nullFirst [] 0%nat ∧
  ¬ not_applicable nullFirst [] 0%nat ∧
  advance [] (from_A [nullFirst; toB]) world0 =
    (set_host 1%nat world0,
     set_currentState B (from_A [nullFirst; toB]),
     Fulfilled [B]).
Proof.
  split; [reflexivity|]. split; [|reflexivity].
  intros (_ & fn & h' & v & Hfn & Hv & Hf).
  injection Hfn as <-. injection Hv as <- <-. discriminate Hf.
Qed.

Lemma scan_next_candidate_and_error_route_witness :
  advance [] (from_A [failingRule; toC]) world0 =
    (set_host 1%nat world0,
     set_currentState ERR1 (from_A [failingRule; toC]),
     Fulfilled [ERR1; err]) ∧
  tried [failingRule; toC] [] 0%nat scan_init = [failingRule].
Proof.
  destruct (scan_next_candidate_and_error_route (from_A [failingRule; toC]) []
              world0 world0 [] 0%nat failingRule [toC]) as (_ & _ & Hthrow).
  - apply reaches_first; [apply pre_ok_from_A | reflexivity].
  - left. eexists. reflexivity.
  - destruct (Hthrow (throwing err) 1%nat err eq_refl eq_refl) as [Hadv Htried].
    split; [exact Hadv | exact Htried].
Defined.

Lemma advance_result_shapes_witness :
  advance input123 (from_A [arrayToB]) world0 =
    (set_host 1%nat world0, set_currentState B (from_A [arrayToB]),
     Fulfilled (B :: input123)) ∧
  advance input123 (from_A [arrayWithStatic]) world0 =
    (set_host 1%nat world0, set_currentState B (from_A [arrayWithStatic]),
     Fulfilled (B :: input123)) ∧
  advance input123 (from_A [fnB]) world0 =
    (set_host 1%nat world0, set_currentState B (from_A [fnB]), Fulfilled [B]) ∧
  advance input123 (from_A [valueWithStatic]) world0 =
    (set_host 1%nat world0, set_currentState C (from_A [valueWithStatic]),
     Fulfilled [C; B]).
Proof.
  split; [|split; [|split]].
  - refine (proj2 (proj1 (advance_result_shapes (from_A [arrayToB]) input123
              world0 world0 [] 0%nat arrayToB [] (passthroughTo B) 1%nat
              (VArr 0 (B :: input123)) _ eq_refl eq_refl eq_refl)
              0%nat (B :: input123) eq_refl eq_refl) eq_refl).
    apply reaches_first; [apply pre_ok_from_A | reflexivity].
  - refine (proj1 (proj2 (advance_result_shapes (from_A [arrayWithStatic]) input123
              world0 world0 [] 0%nat arrayWithStatic [] passthrough 1%nat
              (VArr 0 input123) _ eq_refl eq_refl eq_refl))
              0%nat input123 eq_refl eq_refl).
    apply reaches_first; [apply pre_ok_from_A | reflexivity].
  - refine (proj1 (proj2 (proj2 (advance_result_shapes (from_A [fnB]) input123
              world0 world0 [] 0%nat fnB [] (returning B) 1%nat B _
              eq_refl eq_refl eq_refl))) eq_refl eq_refl).
    apply reaches_first; [apply pre_ok_from_A | reflexivity].
  - refine (proj2 (proj2 (proj2 (advance_result_shapes (from_A [valueWithStatic])
              input123 world0 world0 [] 0%nat valueWithStatic [] (returning B) 1%nat B _
              eq_refl eq_refl eq_refl))) eq_refl eq_refl).
    apply reaches_first; [apply pre_ok_from_A | reflexivity].
Defined.

Lemma advance_static_nextState_falsy_result_witness :
  advance [] (from_A [falsyWithStatic; toC]) world0 =
    (set_host 1%nat world0, set_currentState B (from_A [falsyWithStatic; toC]),
     Fulfilled [B]) ∧
  tried [falsyWithStatic; toC] [] 0%nat scan_init = [falsyWithStatic].
Proof.
  destruct (advance_static_nextState_falsy_result (from_A [falsyWithStatic; toC]) []
              world0 world0 [] 0%nat falsyWithStatic [toC] (returning VNull) 1%nat VNull)
    as (Hadv & _ & Htried).
  - apply reaches_first; [apply pre_ok_from_A | reflexivity].
  - reflexivity.
  - reflexivity.
  - reflexivity.
  - reflexivity.
  - split; [exact Hadv | exact Htried].
Defined.

Lemma candidate_priority_witness :
  (∃ this1 this2,
     addTransition A fnB false (new_FSM A) = Fulfilled this1 ∧
     addTransition A fnC true this1 = Fulfilled this2 ∧
     advance [] this2 world0 =
       (set_host 1%nat world0, set_currentState C this2, Fulfilled [C])) ∧
  (∃ this1 this2,
     addTransition A fnB false (new_FSM A) = Fulfilled this1 ∧
     addTransition A fnC false this1 = Fulfilled this2 ∧
     advance [] this2 world0 =
       (set_host 1%nat world0, set_currentState B this2, Fulfilled [B])).
Proof.
  split.
  - destruct (addTransition A fnB false (new_FSM A)) as [this1|e] eqn:H1;
      [|discriminate H1].
    destruct (addTransition A fnC true this1) as [this2|e] eqn:H2;
      [|revert H2; injection H1 as <-; discriminate].
    destruct (candidate_priority A fnB false [] fnC true (new_FSM A) this1 this1 this2
                H1 eq_refl H2)
      as (k & before & after & _ & _ & _ & Hprio).
    exists this1, this2. split; [reflexivity|]. split; [exact H2|].
    assert (this2 = from_A [fnC; fnB]) as Hthis2
      by (revert H2; injection H1 as <-; by intros [= <-]).
    destruct (Hprio this2 [] world0 world0 eq_refl) as (_ & _ & Hfirst).
    + by rewrite Hthis2.
    + rewrite Hthis2. split; reflexivity.
    + rewrite (Hfirst 1%nat
                 {| scan_nextState := C; attemptedTransition := Some fnC;
                    transitionOutput := [] |} eq_refl eq_refl).
      by rewrite Hthis2.
  - destruct (addTransition A fnB false (new_FSM A)) as [this1|e] eqn:H1;
      [|discriminate H1].
    destruct (addTransition A fnC false this1) as [this2|e] eqn:H2;
      [|revert H2; injection H1 as <-; discriminate].
    destruct (candidate_priority A fnB false [] fnC false (new_FSM A) this1 this1 this2
                H1 eq_refl H2)
      as (k & before & after & Hk & Hreg & _ & Hprio).
    exists this1, this2. split; [reflexivity|]. split; [exact H2|].
    assert (this2 = from_A [fnB; fnC]) as Hthis2
      by (revert H2; injection H1 as <-; by intros [= <-]).
    assert (before = []) as ->.
    { injection Hk as <-. revert Hreg. injection H1 as <-.
      change (Some [fnB] = Some (before ++ fnB :: after) → before = []).
      intros [= Hl]. destruct before as [|x [|y before]]; [done|..];
        by destruct after. }
    destruct (Hprio this2 [] world0 world0 eq_refl) as (_ & _ & Hfirst).
    + by rewrite Hthis2.
    + rewrite Hthis2. split; reflexivity.
    + rewrite (Hfirst 0%nat scan_init 1%nat
                 {| scan_nextState := B; attemptedTransition := Some fnB;
                    transitionOutput := [] |} eq_refl eq_refl eq_refl eq_refl).
      by rewrite Hthis2.
Defined.

Lemma rerunFSM_resumes_witness :
  rerunFSM 3 abc B (VArr 0 [C]) resumable world0 =
    (set_host 1%nat world0, set_currentState C abc,
     Some (Fulfilled (Some [C; VStr "y->c"]))).
Proof.
  destruct (rerunFSM_resumes 3 abc B (VArr 0 [C]) resumable world0)
    as (resumed & Hcur & Hcb & Hvt & Hin & Hfound & _).
  rewrite (Hfound (take 1 resumable) (transitionRecord 2 A B toB [] [VStr "y"])
             (drop 2 resumable) [VStr "y"] eq_refl eq_refl eq_refl).
  - destruct resumed as [cur cbs vt guard]. cbn in Hcur, Hcb, Hvt, Hin.
    rewrite Hcur, Hcb, Hvt, Hin. reflexivity.
  - repeat constructor; discriminate.
Defined.

(** C9, as the specification states it, fails: the record that the handler
    of [logTransitions] appends has no member [rule]; the matched rule is
    its member [transition]. *)
Lemma log_record_has_no_member_rule :
  ∃ w fsm a w2 fsm2 record,
    logTransitions (from_A [arrayToB]) None world0 = Some (w, fsm, a) ∧
    advance input123 fsm w = (w2, fsm2, Fulfilled (B :: input123)) ∧
    heap w2 !! a = Some [record] ∧
    record !! "rule" = None ∧
    record !! "transition" = Some (FRule arrayToB).
Proof.
  destruct (logTransitions (from_A [arrayToB]) None world0) as [[[w fsm] a]|] eqn:Hlog;
    [|discriminate Hlog].
  destruct (advance input123 fsm w) as [[w2 fsm2] res] eqn:Hadv.
  exists w, fsm, a, w2, fsm2.
  injection Hlog as <- <- <-. injection Hadv as <- <- <-.
  eexists. split; [reflexivity|]. split; [reflexivity|]. split; [reflexivity|].
  split; reflexivity.
Qed.

Lemma logTransitions_record_witness :
  ∃ w fsm w2 fsm2,
    logTransitions (from_A [arrayToB]) None world0 = Some (w, fsm, 0%nat) ∧
    advance input123 fsm w = (w2, fsm2, Fulfilled (B :: input123)) ∧
    heap w2 !! 0%nat =
      Some [transitionRecord (clock world0) A B arrayToB input123 input123].
Proof.
  destruct (logTransitions (from_A [arrayToB]) None world0) as [[[w fsm] a]|] eqn:Hlog;
    [|discriminate Hlog].
  assert (a = 0%nat ∧ w = set_heap [[]] world0 ∧
          currentState fsm = A ∧ inTransition fsm = false ∧
          validTransitions fsm = {[ KStr "A" := [arrayToB] ]}) as (-> & -> & Hcur & Hin & Hvt)
    by (injection Hlog as <- <- <-; repeat split).
  assert (set_heap [[]] world0 = set_heap [[]] world0 ∧
          callbackHashList (callbacks fsm) pretransition
            (prePayload (currentState fsm) input123) (set_heap [[]] world0) =
            (set_heap [[]] world0, None)) as [_ Hpre]
    by (injection Hlog as <- ; split; reflexivity).
  destruct (logTransitions_record (from_A [arrayToB]) None world0 (set_heap [[]] world0)
              fsm 0%nat input123 (set_heap [[]] world0) (set_heap [[]] world0)
              [] 0%nat arrayToB [] 1%nat
              {| scan_nextState := B; attemptedTransition := Some arrayToB;
                 transitionOutput := input123 |} Hlog)
    as (_ & _ & _ & _ & Hend).
  - split; [by split|]. split; [|by exists scan_init].
    unfold candidates. by rewrite Hcur, Hvt.
  - reflexivity.
  - reflexivity.
  - destruct (Hend [] eq_refl eq_refl) as (w2 & fsm2 & Hadv & Hheap).
    exists (set_heap [[]] world0), fsm, w2, fsm2.
    split; [reflexivity|]. split; [exact Hadv|].
    rewrite Hcur in Hheap. exact Hheap.
Defined.

Lemma runFSM_loop_self fuel ns result :
  includes [B] ns = false →
  (runFSM_loop fuel [B] ns [] result (from_A [toA; toB]) world0).2 = None.
Proof.
  revert ns result. induction fuel as [|fuel IH]; intros ns result Hns;
    cbn [runFSM_loop]; rewrite Hns; [done|].
  assert (advance [] (from_A [toA; toB]) world0 =
            (world0, from_A [toA; toB], Fulfilled [A])) as -> by reflexivity.
  cbn [hd tl]. by apply IH.
Qed.

(** C2, as the specification states it, fails.  With the array [[B]] as
    final states the sentinel [ERROR] is not terminal: the first call of
    [advance] leads to [ERROR], the second finds no transition from it, and
    [runFSM] rejects instead of returning a result.  And a rule that leads
    from the current state to the final state [B] does not make [runFSM]
    terminate when a rule of higher priority keeps the engine in [A]. *)
Lemma runFSM_array_without_ERROR :
  reaches_final (from_A [failingNoErrorState]) (VArr 0 [B]) [] world0 ∧
  ¬ returns_final (from_A [failingNoErrorState]) (VArr 0 [B]) [] world0 ∧
  (runFSM 2 (from_A [failingNoErrorState]) (VArr 0 [B]) [] world0).2 =
    Some (Rejected (FSMError "No valid transition from state ERROR")) ∧
  candidates (from_A [toA; toB]) = Some [toA; toB] ∧
  nextState toB = B ∧
  ∀ fuel, (runFSM fuel (from_A [toA; toB]) (VArr 0 [B]) [] world0).2 = None.
Proof.
  split; [|split; [|split; [|split; [|split]]]].
  - exists 0%nat, ERROR. split; [reflexivity|]. by right.
  - intros (fuel & w' & fsm' & result & Hrun).
    destruct fuel as [|[|fuel]]; discriminate Hrun.
  - reflexivity.
  - reflexivity.
  - reflexivity.
  - intros fuel. by apply runFSM_loop_self.
Qed.

(** C4, as the specification states it, fails: the transitionFn returns the
    truthy array [[0, 1]] and no static nextState is declared, but the first
    element [0] does not become the new state; the candidate leaves the next
    state unresolved and [advance] rejects. *)
Lemma falsy_first_element_not_committed :
  transitionFn zeroFirst = Some (returning (VArr 0 [VNum 0; VNum 1])) ∧
  truthy (VArr 0 [VNum 0; VNum 1]) = true ∧
  truthy (nextState zeroFirst) = false ∧
  (advance [] (from_A [zeroFirst]) world0).2 =
    Rejected (FSMError "No valid transition from state A") ∧
  currentState (advance [] (from_A [zeroFirst]) world0).1.2 = A.
Proof. repeat split. Qed.

Lemma runFSM_terminates_witness :
  ∃ w' fsm',
    runFSM 5 abc (VArr 0 [C]) [VStr "a"] world0 =
      (w', fsm', Some (Fulfilled (Some [C; VStr "a->b->c"]))) ∧
    currentState fsm' = C.
Proof.
  destruct (iterate 2 VUndefined [VStr "a"] abc world0) as [[[[w' fsm'] s] out]|] eqn:Hit;
    [|discriminate Hit].
  assert (s = C ∧ out = [VStr "a->b->c"] ∧ currentState fsm' = C) as (-> & -> & Hcur)
    by (injection Hit as <- <- <- <-; repeat split).
  exists w', fsm'. split; [|exact Hcur].
  refine (proj1 (runFSM_terminates 5 1 abc (VArr 0 [C]) [VStr "a"] world0 w' fsm'
                   C [VStr "a->b->c"] Hit eq_refl _ _)).
  - intros m s' Hm. destruct m as [|[|m]]; [| |lia]; intros [= <-]; reflexivity.
  - lia.
Defined.

(** * Further properties of the engine *)

Section Further.

Context {Host : Type}.

Local Abbreviation object := (gmap string (@field Host)).

Implicit Types (this fsm : @FSM Host) (w : @World Host) (r : @rule Host)
  (vars : @scan_vars Host) (h : Host) (input : list value).

(** The five exits of [advance]. *)
Lemma advance_inv input this w :
  (inTransition this = true ∧
   advance input this w =
     (w, this, Rejected (FSMError "cannot advance while in transition"))) ∨
  (∃ w1 e,
     inTransition this = false ∧
     callbackHashList (callbacks this) pretransition
       (prePayload (currentState this) input) w = (w1, Some e) ∧
     advance input this w = (w1, this, Rejected e)) ∨
  (∃ w1,
     pre_ok this input w w1 ∧ candidates this = None ∧
     advance input this w = (w1, set_inTransition true this, Rejected TypeError)) ∨
  (∃ w1 cands h vars,
     pre_ok this input w w1 ∧ candidates this = Some cands ∧
     scan cands input (host w1) scan_init = (h, vars) ∧
     truthy (scan_nextState vars) = false ∧
     advance input this w =
       (set_host h w1, set_inTransition true this,
        Rejected (match getLabel (currentState this) with
                  | Some l => FSMError ("No valid transition from state " +:+ l)
                  | None => TypeError
                  end))) ∨
  (∃ w1 cands h vars,
     pre_ok this input w w1 ∧ candidates this = Some cands ∧
     scan cands input (host w1) scan_init = (h, vars) ∧
     truthy (scan_nextState vars) = true ∧
     advance input this w = commit this input vars (set_host h w1)).
Proof.
  destruct (inTransition this) eqn:Hin.
  { left. split; [done|]. unfold advance. by rewrite Hin. }
  right.
  destruct (callbackHashList (callbacks this) pretransition
              (prePayload (currentState this) input) w) as [w1 [e|]] eqn:Hpre.
  { left. exists w1, e. do 2 (split; [done|]).
    unfold advance. rewrite Hin. cbv zeta.
    cbn [callbacks currentState set_inTransition]. rewrite Hpre.
    by rewrite guard_released. }
  right. assert (pre_ok this input w w1) as Hok by done.
  destruct (candidates this) as [cands|] eqn:Hc.
  - right. destruct (scan cands input (host w1) scan_init) as [h vars] eqn:Hscan.
    pose proof (advance_scan this input w w1 cands h vars Hok Hc Hscan) as Hadv.
    destruct (truthy (scan_nextState vars)) eqn:Ht.
    + right. by exists w1, cands, h, vars.
    + left. by exists w1, cands, h, vars.
  - left. exists w1. do 2 (split; [done|]).
    unfold advance, candidates in *. rewrite Hin. cbv zeta.
    cbn [callbacks currentState set_inTransition validTransitions]. rewrite Hpre.
    by destruct (toPropertyKey (currentState this)).
Qed.

Lemma commit_tables this input vars w :
  callbacks (commit this input vars w).1.2 = callbacks this ∧
  validTransitions (commit this input vars w).1.2 = validTransitions this.
Proof.
  unfold commit. cbv zeta. by destruct (callbackHashList _ _ _ _) as [w2 [e|]].
Qed.

Lemma commit_result this input vars w result :
  (commit this input vars w).2 = Fulfilled result →
  result = scan_nextState vars :: transitionOutput vars.
Proof.
  unfold commit. cbv zeta. destruct (callbackHashList _ _ _ _) as [w2 [e|]]; [done|].
  by intros [= <-].
Qed.


Lemma scan_inv cands input :
  ∀ h vars0 h' vars,
    truthy (scan_nextState vars0) = false →
    scan cands input h vars0 = (h', vars) →
    truthy (scan_nextState vars) = true →
    ∃ skipped r rest h0 v0,
      cands = skipped ++ r :: rest ∧
      scan skipped input h vars0 = (h0, v0) ∧
      truthy (scan_nextState v0) = false ∧
      attempt r input h0 = (h', vars).
Proof.
  induction cands as [|r cands IH]; intros h vars0 h' vars Hf Hscan Ht.
  - cbn [scan] in Hscan. injection Hscan as <- <-. congruence.
  - cbn [scan] in Hscan. rewrite Hf in Hscan. cbn [negb] in Hscan.
    destruct (attempt r input h) as [h1 v1] eqn:Hatt.
    destruct (truthy (scan_nextState v1)) eqn:Ht1.
    + rewrite scan_resolved in Hscan by done. injection Hscan as <- <-.
      by exists [], r, cands, h, vars0.
    + destruct (IH h1 v1 h' vars Ht1 Hscan Ht)
        as (skipped & r' & rest & h0 & v0 & -> & Hskip & Hf0 & Hatt').
      exists (r :: skipped), r', rest, h0, v0. split; [done|].
      split; [|done]. cbn [scan]. by rewrite Hf, Hatt.
Qed.

(** X1: the reentrancy guard.  An instance that is in transition rejects
    every [advance] with "cannot advance while in transition" and nothing
    happens: no handler and no transitionFn is called, the instance and the
    world are unchanged.  The run driver on such an instance rejects with
    the same error at its first call, and so does [rerunFSM], which
    overwrites the current state but not the guard. *)
Theorem advance_in_transition this input w :
  inTransition this = true →
  advance input this w =
    (w, this, Rejected (FSMError "cannot advance while in transition")) ∧
  (∀ fuel finalStates,
     includes (normalizeFinalStates finalStates) VUndefined = false →
     runFSM (S fuel) this finalStates input w =
       (w, this, Some (Rejected (FSMError "cannot advance while in transition")))) ∧
  (∀ fuel resumeState finalStates (log : list object) args,
     includes (normalizeFinalStates finalStates) VUndefined = false →
     spread (resumeArgs log resumeState) = Some args →
     rerunFSM (S fuel) this resumeState finalStates log w =
       (w, set_currentState resumeState this,
        Some (Rejected (FSMError "cannot advance while in transition")))).
Proof.
  intros Hin.
  assert (∀ fsm args, inTransition fsm = true →
            advance args fsm w =
              (w, fsm, Rejected (FSMError "cannot advance while in transition"))) as Hadv
    by (intros fsm args Hfsm; unfold advance; by rewrite Hfsm).
  split; [by apply Hadv|]. split.
  - intros fuel finalStates Hundef.
    unfold runFSM. cbn [runFSM_loop]. by rewrite Hundef, Hadv.
  - intros fuel resumeState finalStates log args Hundef Hargs.
    unfold rerunFSM, runFSM. cbv zeta. rewrite Hargs. cbn [runFSM_loop].
    by rewrite Hundef, Hadv.
Qed.

(** [advance] writes neither the registered handlers nor the rule table,
    on any of its exits, and neither does the run driver. *)
Lemma advance_keeps_tables input this w :
  (callbacks (advance input this w).1.2 = callbacks this ∧
   validTransitions (advance input this w).1.2 = validTransitions this) ∧
  ∀ fuel finalStates,
    callbacks (runFSM fuel this finalStates input w).1.2 = callbacks this ∧
    validTransitions (runFSM fuel this finalStates input w).1.2 = validTransitions this.
Proof.
  assert (Hadv : ∀ input this w,
    callbacks (advance input this w).1.2 = callbacks this ∧
    validTransitions (advance input this w).1.2 = validTransitions this).
  { clear. intros input this w.
    destruct (advance_inv input this w)
      as [[_ ->]|[(w1 & e & _ & _ & ->)|[(w1 & _ & _ & ->)|
          [(w1 & cands & h & vars & _ & _ & _ & _ & ->)|
           (w1 & cands & h & vars & _ & _ & _ & _ & ->)]]]]; try done.
    apply commit_tables. }
  split; [apply Hadv|]. intros fuel finalStates. unfold runFSM.
  generalize (normalizeFinalStates finalStates) as finals.
  generalize (@None (list value)) as result. generalize VUndefined as ns.
  revert input this w.
  induction fuel as [|fuel IH]; intros input this w ns result finals; cbn [runFSM_loop];
    destruct (includes finals ns); try done.
  destruct (advance input this w) as [[w1 this1] [r|e]] eqn:Hstep.
  - destruct (Hadv input this w) as [Hc Hv]. rewrite Hstep in Hc, Hv. cbn [fst snd] in Hc, Hv.
    destruct (IH (tl r) this1 w1 (hd VUndefined r) (Some r) finals) as [Hc' Hv'].
    split; congruence.
  - destruct (Hadv input this w) as [Hc Hv]. by rewrite Hstep in Hc, Hv.
Qed.

(** X2: every fulfilled [advance] is the commit of exactly one registered
    candidate of the state it started in: the pretransition join succeeded,
    the candidates before it were attempted and left the next state
    unresolved, none after it was attempted; the result is the committed
    state followed by the candidate's output, the committed state is truthy
    and is the new current state, and the guard is released. *)
Theorem advance_fulfilled_inv input this w w' this' result :
  advance input this w = (w', this', Fulfilled result) →
  ∃ w1 skipped h r rest h' vars,
    reaches this input w w1 skipped h r rest ∧
    attempt r input h = (h', vars) ∧
    tried (skipped ++ r :: rest) input (host w1) scan_init = skipped ++ [r] ∧
    truthy (scan_nextState vars) = true ∧
    result = scan_nextState vars :: transitionOutput vars ∧
    currentState this' = scan_nextState vars ∧
    inTransition this' = false ∧
    advance input this w = commit this input vars (set_host h' w1).
Proof.
  intros Hadv.
  destruct (advance_inv input this w)
    as [[_ H]|[(w1 & e & _ & _ & H)|[(w1 & _ & _ & H)|
        [(w1 & cands & h & vars & _ & _ & _ & _ & H)|
         (w1 & cands & h' & vars & Hpre & Hc & Hscan & Ht & H)]]]];
    rewrite H in Hadv; try discriminate Hadv.
  destruct (scan_inv cands input (host w1) scan_init h' vars eq_refl Hscan Ht)
    as (skipped & r & rest & h & v0 & -> & Hskip & Hf0 & Hatt).
  assert (reaches this input w w1 skipped h r rest) as Hreach.
  { split; [done|]. split; [done|]. by exists v0. }
  exists w1, skipped, h, r, rest, h', vars.
  split; [done|]. split; [done|].
  split; [by eapply tried_reaches|]. split; [done|].
  pose proof (commit_state this input vars (set_host h' w1)) as [Hcur Hin].
  pose proof (commit_result this input vars (set_host h' w1) result) as Hres.
  rewrite Hadv in Hcur, Hin, Hres. cbn [fst snd] in Hcur, Hin, Hres.
  split; [by apply Hres|]. by do 2 (split; [done|]).
Qed.

(** X3: when the engine is left wedged.  An [advance] that starts with the
    guard released ends with the guard still set only on the exits where
    the pretransition join succeeded and no next state was resolved: it
    rejects with "No valid transition from state <label>" or with a
    TypeError, and the current state is unchanged.  On every other exit the
    guard is released. *)
Theorem advance_guard_left_set input this w w' this' res :
  inTransition this = false →
  advance input this w = (w', this', res) →
  inTransition this' = true →
  currentState this' = currentState this ∧
  (∃ w1, pre_ok this input w w1) ∧
  (res = Rejected TypeError ∨
   ∃ label, getLabel (currentState this) = Some label ∧
            res = Rejected (FSMError ("No valid transition from state " +:+ label))).
Proof.
  intros Hin Hadv Hset.
  destruct (advance_inv input this w)
    as [[Hin' _]|[(w1 & e & _ & _ & H)|[(w1 & Hpre & _ & H)|
        [(w1 & cands & h & vars & Hpre & _ & _ & _ & H)|
         (w1 & cands & h & vars & _ & _ & _ & _ & H)]]]];
    [congruence|rewrite H in Hadv..].
  - injection Hadv as <- <- <-. congruence.
  - injection Hadv as <- <- <-. split; [done|]. split; [by exists w1|]. by left.
  - injection Hadv as <- <- <-. split; [done|]. split; [by exists w1|].
    destruct (getLabel (currentState this)) as [l|]; [right; by exists l|by left].
  - pose proof (commit_state this input vars (set_host h w1)) as [_ Hrel].
    rewrite Hadv in Hrel. cbn [fst snd] in Hrel. congruence.
Qed.

(** X4: [advance] never puts the engine into a falsy state: the current
    state after the call is the one before it or a truthy value.  An engine
    in a truthy state stays in truthy states, also through the run
    driver. *)
Theorem advance_state_truthy input this w :
  (currentState (advance input this w).1.2 = currentState this ∨
   truthy (currentState (advance input this w).1.2) = true) ∧
  (truthy (currentState this) = true →
   ∀ fuel finalStates,
     truthy (currentState (runFSM fuel this finalStates input w).1.2) = true).
Proof.
  assert (Hadv : ∀ input this w,
    currentState (advance input this w).1.2 = currentState this ∨
    truthy (currentState (advance input this w).1.2) = true).
  { clear. intros input this w.
    destruct (advance_inv input this w)
      as [[_ ->]|[(w1 & e & _ & _ & ->)|[(w1 & _ & _ & ->)|
          [(w1 & cands & h & vars & _ & _ & _ & _ & ->)|
           (w1 & cands & h & vars & _ & _ & _ & Ht & ->)]]]]; try (by left).
    right. by rewrite (proj1 (commit_state this input vars (set_host h w1))). }
  split; [apply Hadv|]. intros Ht fuel finalStates. unfold runFSM.
  generalize (normalizeFinalStates finalStates) as finals.
  generalize (@None (list value)) as result. generalize VUndefined as ns.
  revert input this w Ht.
  induction fuel as [|fuel IH]; intros input this w Ht ns result finals; cbn [runFSM_loop];
    destruct (includes finals ns); try done.
  pose proof (Hadv input this w) as Hstep.
  destruct (advance input this w) as [[w1 this1] [r|e]]; cbn [fst snd] in Hstep.
  - apply IH. destruct Hstep; congruence.
  - cbn [fst snd]. destruct Hstep; congruence.
Qed.


(** ** Registration *)


Lemma addTransition_table_ok startingState r prepend this this' :
  addTransition startingState r prepend this = Fulfilled this' →
  table_ok this → table_ok this'.
Proof.
  intros Hadd Hok.
  assert (well_formed r) as Hwf.
  { unfold addTransition in Hadd. unfold well_formed.
    destruct (truthy (nextState r)); [by right|]. left.
    destruct (transitionFn r) as [fn|]; [by eexists|].
    rewrite bool_decide_eq_false_2 in Hadd; [done|]. intros [? ?]. done. }
  destruct (addTransition_table _ _ _ _ _ Hadd) as (_ & k & _ & Hk & Hother).
  intros k' l Hl. destruct (decide (k' = k)) as [->|Hne].
  - rewrite Hk in Hl. injection Hl as <-.
    destruct (validTransitions this !! k) as [old|] eqn:Hold; cbn [from_option id].
    + destruct (Hok k old Hold) as [Hne Hall].
      split; [destruct prepend; [done|by destruct old]|].
      intros r' Hin. destruct prepend.
      * apply elem_of_cons in Hin as [->|Hin]; [done|by apply Hall].
      * apply elem_of_app in Hin as [Hin|Hin]; [by apply Hall|].
        by apply list_elem_of_singleton in Hin as ->.
    + split; [by destruct prepend|]. intros r' Hin.
      assert (r' = r) as -> by (destruct prepend; by apply list_elem_of_singleton in Hin).
      done.
  - rewrite Hother in Hl by done. by apply (Hok k' l).
Qed.

(** X6: the rule table of an engine built by the constructor and calls of
    [addTransition] never holds an empty list and holds only rules with a
    transitionFn or a truthy nextState; [advance] keeps it so. *)
Theorem registered_table_ok initialState registrations this :
  addTransitions registrations (new_FSM initialState) = Fulfilled this →
  table_ok this ∧
  ∀ input w, table_ok (advance input this w).1.2.
Proof.
  assert (Hgen : ∀ regs (this0 this1 : @FSM Host),
            table_ok this0 → addTransitions regs this0 = Fulfilled this1 → table_ok this1).
  { unfold addTransitions. induction regs as [|[[s r] p] regs IH]; intros this0 this1 Hok Hadd.
    - by injection Hadd as <-.
    - cbn [foldl fst snd] in Hadd.
      destruct (addTransition s r p this0) as [thisx|e] eqn:H1.
      + eapply IH; [|done]. by eapply addTransition_table_ok.
      + by rewrite addTransitions_rejected in Hadd. }
  intros Hadd.
  assert (table_ok this) as Hok.
  { eapply Hgen; [|done]. intros k l Hl.
    change (@lookup propkey _ (gmap propkey (list rule)) _ k ∅ = Some l) in Hl.
    by rewrite lookup_empty in Hl. }
  split; [done|]. intros input w k l.
  assert (validTransitions (advance input this w).1.2 = validTransitions this) as ->; [|by apply Hok].
  destruct (advance_inv input this w)
    as [[_ ->]|[(w1 & e & _ & _ & ->)|[(w1 & _ & _ & ->)|
        [(w1 & cands & h & vars & _ & _ & _ & _ & ->)|
         (w1 & cands & h & vars & _ & _ & _ & _ & ->)]]]]; try done.
  apply commit_tables.
Qed.


(** X8: a state whose property key is a member name of [Object.prototype]
    ("constructor", "toString", ...) cannot get its first rule, and an
    event of such a name cannot get its first handler: the registration
    throws a TypeError. *)
Theorem inherited_key_registration k key r prepend (callback : @handler Host) this :
  toPropertyKey key = Some k →
  inherited k = true →
  (validTransitions this !! k = None → well_formed r →
   addTransition key r prepend this = Rejected TypeError) ∧
  (callbacks this !! k = None → on key callback this = None).
Proof.
  intros Hk Hi. split.
  - intros Hnone Hwf. unfold addTransition, saveToHashList.
    rewrite Hk, Hnone, Hi.
    destruct (negb _ && negb _) eqn:Hv; [|done].
    apply andb_true_iff in Hv as [Hfn Hns].
    apply negb_true_iff in Hfn, Hns. apply bool_decide_eq_false in Hfn.
    destruct Hwf; [done|congruence].
  - intros Hnone. unfold on, saveToHashList. by rewrite Hk, Hnone, Hi.
Qed.

(** ** The join of the handlers *)

Lemma fire_failed (arg : object) (fns : list (@handler Host)) w (e : exn) :
  foldl (λ (acc : World * option exn) (fn : handler),
           let '(w', o) := invokePromiseFn fn arg acc.1 in
           (w', match acc.2, o with
                | None, Throws e => Some (Thrown e)
                | err, _ => err
                end)) (w, Some e) fns =
  ((foldl (λ (acc : World * option exn) (fn : handler),
           let '(w', o) := invokePromiseFn fn arg acc.1 in
           (w', match acc.2, o with
                | None, Throws e => Some (Thrown e)
                | err, _ => err
                end)) (w, None) fns).1, Some e).
Proof.
  match goal with |- foldl ?F _ _ = _ => set (step := F) end.
  revert w e. induction fns as [|fn fns IH]; intros w e; [done|].
  cbn [foldl].
  assert (step (w, Some e) fn = ((fn arg w).1, Some e)) as ->
    by (unfold step, invokePromiseFn; cbn [fst snd]; by destruct (fn arg w) as [? []]).
  assert (step (w, None) fn =
            ((fn arg w).1,
             match (fn arg w).2 with
             | Throws e' => Some (Thrown e')
             | Returns _ => None
             end)) as ->
    by (unfold step, invokePromiseFn; cbn [fst snd]; by destruct (fn arg w) as [? []]).
  destruct ((fn arg w).2) as [v|e'].
  - apply IH.
  - by rewrite (IH _ e), (IH _ (Thrown e')).
Qed.

(** X9: the join of synchronous handlers.  When the handlers of an event
    complete synchronously (each returns a value or throws before the next
    is called), the join calls every one of them, in registration order,
    each in the world the one before left, also after one of them has
    thrown; it fails with the error of the first handler, in registration
    order, that throws. *)
Theorem join_first_failure (hashList : gmap propkey (list (@handler Host)))
    eventName k (arg : object) w (before : list (@handler Host)) (fn : @handler Host)
    (after : list (@handler Host)) w1 w2 e :
  toPropertyKey eventName = Some k →
  hashList !! k = Some (before ++ fn :: after) →
  callbackHashList (<[k := before]> hashList) eventName arg w = (w1, None) →
  fn arg w1 = (w2, Throws e) →
  callbackHashList hashList eventName arg w =
    ((callbackHashList (<[k := after]> hashList) eventName arg w2).1, Some (Thrown e)).
Proof.
  intros Hk Hl Hbefore Hfn. unfold callbackHashList in *. rewrite Hk in *.
  rewrite lookup_insert_eq in Hbefore. rewrite lookup_insert_eq, Hl.
  rewrite foldl_app, Hbefore. cbn [foldl fst snd]. unfold invokePromiseFn at 2.
  rewrite Hfn. apply fire_failed.
Qed.

(** X10: a candidate without transitionFn is taken as soon as the scan
    reaches it: [advance] commits its static nextState with the empty
    output, no transition function is called for it, and no candidate
    after it is attempted. *)
Theorem advance_static_rule this input w w1 skipped h r rest :
  reaches this input w w1 skipped h r rest →
  transitionFn r = None →
  truthy (nextState r) = true →
  advance input this w =
    commit this input
      {| scan_nextState := nextState r; attemptedTransition := Some r;
         transitionOutput := [] |} (set_host h w1) ∧
  tried (skipped ++ r :: rest) input (host w1) scan_init = skipped ++ [r].
Proof.
  intros Hreach Hfn Hns.
  assert (attempt r input h =
            (h, {| scan_nextState := nextState r; attemptedTransition := Some r;
                   transitionOutput := [] |})) as Hatt
    by (unfold attempt; by rewrite Hfn).
  split; [by eapply advance_reaches|by eapply tried_reaches].
Qed.


(** ** The run driver *)

Lemma advance_fulfilled_state input this w w' this' result :
  advance input this w = (w', this', Fulfilled result) →
  result = currentState this' :: tl result ∧
  truthy (currentState this') = true ∧
  inTransition this' = false.
Proof.
  intros Hadv.
  destruct (advance_inv input this w)
    as [[_ H]|[(w1 & e & _ & _ & H)|[(w1 & _ & _ & H)|
        [(w1 & cands & h & vars & _ & _ & _ & _ & H)|
         (w1 & cands & h & vars & _ & _ & _ & Ht & H)]]]];
    rewrite H in Hadv; try discriminate Hadv.
  pose proof (commit_state this input vars (set_host h w1)) as [Hcur Hin].
  pose proof (commit_result this input vars (set_host h w1) result) as Hres.
  rewrite Hadv in Hcur, Hin, Hres. cbn [fst snd] in Hcur, Hin, Hres.
  rewrite (Hres eq_refl). cbn [tl]. rewrite Hcur. done.
Qed.

Lemma runFSM_loop_sound finals fuel :
  ∀ ns args result fsm w w' fsm' res,
    runFSM_loop fuel finals ns args result fsm w = (w', fsm', Some (Fulfilled res)) →
    ∃ n s out,
      (n ≤ fuel)%nat ∧
      iterate n ns args fsm w = Some (w', fsm', s, out) ∧
      includes finals s = true ∧
      (∀ m x, (m < n)%nat → iterate m ns args fsm w = Some x →
              includes finals x.1.2 = false) ∧
      res = match n with O => result | S _ => Some (s :: out) end ∧
      (n ≠ O → currentState fsm' = s ∧ truthy s = true ∧ inTransition fsm' = false).
Proof.
  induction fuel as [|fuel IH]; intros ns args result fsm w w' fsm' res Hrun;
    cbn [runFSM_loop] in Hrun; destruct (includes finals ns) eqn:Hns; try discriminate Hrun.
  1,2: injection Hrun as <- <- <-; exists O, ns, args;
       split; [lia|]; split; [done|]; split; [done|]; split; [intros; lia|done].
  destruct (advance args fsm w) as [[w1 fsm1] [r|e]] eqn:Hadv; [|discriminate Hrun].
  destruct (IH _ _ _ _ _ _ _ _ Hrun) as (n & s & out & Hn & Hit & Hin & Hbefore & Hres & Hst).
  exists (S n), s, out. split; [lia|]. cbn [iterate]. rewrite Hadv.
  split; [done|]. split; [done|]. split; [|split].
  - intros [|m] x Hm Hx.
    + cbn [iterate] in Hx. by injection Hx as <-.
    + cbn [iterate] in Hx. rewrite Hadv in Hx. apply (Hbefore m x); [lia|done].
  - destruct n; [|done]. cbn [iterate] in Hit. injection Hit as <- <- <- <-.
    destruct (advance_fulfilled_state _ _ _ _ _ _ Hadv) as (Hr & _).
    rewrite Hres. by destruct r.
  - intros _. destruct n; [|by apply Hst].
    cbn [iterate] in Hit. injection Hit as <- <- <- <-.
    destruct (advance_fulfilled_state _ _ _ _ _ _ Hadv) as (Hr & Ht & Hg).
    rewrite Hr. cbn [hd]. done.
Qed.

(** X11: what [runFSM] returns.  It returns [undefined], without calling
    [advance], exactly when [undefined] is among the final states (a
    forgotten [finalStates] argument, say).  Every other result is the
    [[state, ...output]] of the last of one or more fulfilled calls of
    [advance]: its state is a final state, is truthy and is the engine's
    current state, the guard is released, and no loop state before it was
    final. *)
Theorem runFSM_result fuel fsm finalStates args w :
  (includes (normalizeFinalStates finalStates) VUndefined = true →
   runFSM fuel fsm finalStates args w = (w, fsm, Some (Fulfilled None))) ∧
  (∀ w' fsm' result,
     runFSM fuel fsm finalStates args w = (w', fsm', Some (Fulfilled result)) →
     match result with
     | None => includes (normalizeFinalStates finalStates) VUndefined = true
     | Some r =>
         ∃ n s out,
           r = s :: out ∧
           (S n ≤ fuel)%nat ∧
           iterate (S n) VUndefined args fsm w = Some (w', fsm', s, out) ∧
           includes (normalizeFinalStates finalStates) s = true ∧
           (∀ m s', (m ≤ n)%nat → state_after m args fsm w = Some s' →
                    includes (normalizeFinalStates finalStates) s' = false) ∧
           currentState fsm' = s ∧ truthy s = true ∧ inTransition fsm' = false
     end).
Proof.
  split.
  - intros Hundef. unfold runFSM. by apply runFSM_loop_final.
  - intros w' fsm' result Hrun. unfold runFSM in Hrun.
    destruct (runFSM_loop_sound _ _ _ _ _ _ _ _ _ _ Hrun)
      as (n & s & out & Hn & Hit & Hin & Hbefore & Hres & Hst).
    destruct n as [|n].
    + subst result. cbn [iterate] in Hit. by injection Hit as <- <- <- <-.
    + subst result. exists n, s, out. do 4 (split; [done|]). split; [|by apply Hst].
      intros m s' Hm. unfold state_after.
      destruct (iterate m VUndefined args fsm w) as [x|] eqn:Hx; [|done].
      intros [= <-]. apply (Hbefore m x); [lia|done].
Qed.

(** X12: with a single final state (not an array, not [undefined]) the run
    driver surfaces the failure of a transition function as a result: when
    the candidate reached in the first call throws [e] and declares no
    errorState, [runFSM] returns [[ERROR, e]] after that one call, the
    engine being in the state [ERROR]. *)
Theorem runFSM_surfaces_error fuel this finalStates input w w1 skipped h r rest fn h' e w2 :
  isArray finalStates = false →
  finalStates ≠ VUndefined →
  reaches this input w w1 skipped h r rest →
  transitionFn r = Some fn →
  fn input h = (h', Throws e) →
  truthy (errorState r) = false →
  callbackHashList (callbacks this) posttransition
    (postPayload (currentState this) ERROR (Some r) input [e]) (set_host h' w1) =
    (w2, None) →
  runFSM (S fuel) this finalStates input w =
    (w2, set_inTransition false (set_currentState ERROR this),
     Some (Fulfilled (Some [ERROR; e]))).
Proof.
  intros Harr Hundef Hreach Hfn He Herr Hpost.
  pose proof (attempt_throws r input h fn h' e Hfn He) as Hatt. rewrite Herr in Hatt.
  assert (advance input this w =
            (w2, set_inTransition false (set_currentState ERROR this),
             Fulfilled [ERROR; e])) as Hadv.
  { rewrite (advance_reaches _ _ _ _ _ _ _ _ _ _ Hreach Hatt eq_refl).
    unfold commit. cbv zeta.
    cbn [callbacks currentState set_currentState scan_nextState attemptedTransition
         transitionOutput].
    by rewrite Hpost. }
  assert (normalizeFinalStates finalStates = [finalStates; ERROR]) as Hnorm
    by by destruct finalStates.
  unfold runFSM. rewrite Hnorm. cbn [runFSM_loop].
  assert (includes [finalStates; ERROR] VUndefined = false) as ->.
  { cbn [includes existsb]. rewrite !orb_false_r.
    destruct (value_eqb VUndefined finalStates) eqn:Heq; [|done].
    apply value_eqb_eq in Heq. congruence. }
  rewrite Hadv. cbn [hd tl].
  apply runFSM_loop_final. cbn [includes existsb].
  rewrite (value_eqb_refl ERROR). by rewrite orb_true_r.
Qed.


(** ** The log of a run *)

Lemma scan_attempted cands input :
  ∀ h vars0 h' vars,
    truthy (scan_nextState vars0) = false →
    scan cands input h vars0 = (h', vars) →
    truthy (scan_nextState vars) = true →
    ∃ r, attemptedTransition vars = Some r.
Proof.
  intros h vars0 h' vars Hf Hscan Ht.
  destruct (scan_inv cands input h vars0 h' vars Hf Hscan Ht)
    as (skipped & r & rest & h0 & v0 & _ & _ & _ & Hatt).
  exists r. pose proof (attempt_attempted r input h0) as Hr. by rewrite Hatt in Hr.
Qed.

Lemma advance_logged a input this w w' this' result (log : list object) :
  callbacks this !! KStr "pretransition" = None →
  callbacks this !! KStr "posttransition" = Some [logHandler a] →
  heap w !! a = Some log →
  advance input this w = (w', this', Fulfilled result) →
  clock w' = clock w ∧
  callbacks this' = callbacks this ∧
  ∃ rule,
    heap w' !! a =
      Some (log ++ [transitionRecord (clock w) (currentState this)
                      (hd VUndefined result) rule input (tl result)]).
Proof.
  intros Hnopre Hpost Hlog Hadv.
  destruct (advance_inv input this w)
    as [[_ H]|[(w1 & e & _ & _ & H)|[(w1 & _ & _ & H)|
        [(w1 & cands & h & vars & _ & _ & _ & _ & H)|
         (w1 & cands & h & vars & [_ Hpre] & _ & Hscan & Ht & H)]]]];
    rewrite H in Hadv; try discriminate Hadv.
  unfold callbackHashList in Hpre.
  cbn [pretransition toPropertyKey toString fmap option_fmap option_map] in Hpre.
  rewrite Hnopre in Hpre. injection Hpre as <-.
  destruct (scan_attempted cands input (host w) scan_init h vars eq_refl Hscan Ht)
    as [rule Hrule].
  unfold commit in Hadv. cbv zeta in Hadv.
  cbn [callbacks currentState set_currentState] in Hadv.
  unfold callbackHashList in Hadv.
  cbn [posttransition toPropertyKey toString fmap option_fmap option_map] in Hadv.
  rewrite Hpost, Hrule in Hadv. cbn [foldl fst snd] in Hadv.
  unfold invokePromiseFn in Hadv. rewrite logHandler_appends in Hadv.
  injection Hadv as <- <- <-.
  split; [done|]. split; [done|]. exists rule.
  cbn [heap set_heap set_host clock hd tl]. rewrite list_lookup_alter_eq, Hlog. reflexivity.
Qed.

Lemma iterate_logged a n :
  ∀ ns args fsm w (log : list object) w' fsm' s out,
    callbacks fsm !! KStr "pretransition" = None →
    callbacks fsm !! KStr "posttransition" = Some [logHandler a] →
    heap w !! a = Some log →
    iterate n ns args fsm w = Some (w', fsm', s, out) →
    clock w' = clock w ∧
    ∃ recs,
      heap w' !! a = Some (log ++ recs) ∧
      length recs = n ∧
      (∀ i wi fi si ai wj fj sj aj,
         iterate i ns args fsm w = Some (wi, fi, si, ai) →
         iterate (S i) ns args fsm w = Some (wj, fj, sj, aj) →
         (i < n)%nat →
         ∃ rule, recs !! i =
                   Some (transitionRecord (clock w) (currentState fi) sj rule ai aj)) ∧
      (n ≠ O →
       ∃ recs0 from rule input,
         recs = recs0 ++ [transitionRecord (clock w) from s rule input out]).
Proof.
  induction n as [|n IH]; intros ns args fsm w log w' fsm' s out Hnopre Hpost Hlog Hit.
  - injection Hit as <- <- <- <-. split; [done|]. exists [].
    rewrite app_nil_r. split; [done|]. split; [done|]. split; [intros; lia|done].
  - cbn [iterate] in Hit.
    destruct (advance args fsm w) as [[w1 fsm1] [r|e]] eqn:Hadv; [|discriminate Hit].
    destruct (advance_logged a args fsm w w1 fsm1 r log Hnopre Hpost Hlog Hadv)
      as (Hclock & Hcb & rule & Hheap).
    rewrite <- Hcb in Hnopre, Hpost.
    destruct (IH _ _ _ _ _ _ _ _ _ Hnopre Hpost Hheap Hit)
      as (Hclock' & recs & Hheap' & Hlen & Hidx & Hlast).
    split; [congruence|].
    exists (transitionRecord (clock w) (currentState fsm) (hd VUndefined r) rule args (tl r)
              :: recs).
    split; [by rewrite Hheap', <- app_assoc|]. split; [cbn [length]; lia|]. split.
    + intros [|i] wi fi si ai wj fj sj aj Hi Hj Hlt.
      * cbn [iterate] in Hi, Hj. rewrite Hadv in Hj.
        injection Hi as <- <- <- <-. injection Hj as <- <- <- <-. by exists rule.
      * cbn [iterate] in Hi. rewrite Hadv in Hi.
        change (iterate (S (S i)) ns args fsm w) with
          (match advance args fsm w with
           | (w', fsm', Fulfilled r) => iterate (S i) (hd VUndefined r) (tl r) fsm' w'
           | (_, _, Rejected _) => None
           end) in Hj.
        rewrite Hadv in Hj.
        destruct (Hidx i wi fi si ai wj fj sj aj Hi Hj ltac:(lia)) as [rule' Hrec].
        exists rule'. cbn [lookup list_lookup]. by rewrite <- Hclock.
    + intros _. destruct n as [|n].
      * injection Hit as <- <- <- <-. destruct recs; [|done].
        by exists [], (currentState fsm), rule, args.
      * destruct (Hlast ltac:(done)) as (recs0 & from & rule' & input & ->).
        eexists (_ :: recs0), from, rule', input. by rewrite Hclock.
Qed.

(** X13: the log of a run.  On an engine whose only handler is the one of
    [logTransitions], [n] fulfilled calls of [advance] in a row append
    exactly [n] records to the log, in order: record [i] has as [from] the
    state call [i] started in, as [to] the state it committed, as [input]
    the arguments of the call and as [output] what it fed to the next
    call.  So the last record holds the state the run has reached and the
    arguments its next call would get, and [rerunFSM] at that state with
    this log is the run driver called with exactly these arguments. *)
Theorem run_is_logged a n ns args fsm w (log : list object) w' fsm' s out :
  callbacks fsm !! KStr "pretransition" = None →
  callbacks fsm !! KStr "posttransition" = Some [logHandler a] →
  heap w !! a = Some log →
  iterate n ns args fsm w = Some (w', fsm', s, out) →
  ∃ recs,
    heap w' !! a = Some (log ++ recs) ∧
    length recs = n ∧
    (∀ i wi fi si ai wj fj sj aj,
       iterate i ns args fsm w = Some (wi, fi, si, ai) →
       iterate (S i) ns args fsm w = Some (wj, fj, sj, aj) →
       (i < n)%nat →
       ∃ rule, recs !! i =
                 Some (transitionRecord (clock w) (currentState fi) sj rule ai aj)) ∧
    (n ≠ O →
     ∀ fuel engine finalStates w0,
       rerunFSM fuel engine s finalStates (log ++ recs) w0 =
         runFSM fuel (set_currentState s engine) finalStates out w0).
Proof.
  intros Hnopre Hpost Hlog Hit.
  destruct (iterate_logged a n ns args fsm w log w' fsm' s out Hnopre Hpost Hlog Hit)
    as (_ & recs & Hheap & Hlen & Hidx & Hlast).
  exists recs. do 3 (split; [done|]).
  intros Hn fuel engine finalStates w0.
  destruct (Hlast Hn) as (recs0 & from & rule & input & ->).
  unfold rerunFSM. cbv zeta. rewrite app_assoc.
  by rewrite (resumeArgs_found (log ++ recs0) []
                (transitionRecord (clock w) from s rule input out) out s).
Qed.

(** ** Vocabularies of states *)

Lemma makeStates_failed (states : list value) :
  foldl (λ (acc : option (gmap string value)) (state : value),
           match acc, getLabel state with
           | Some m, Some l =>
               Some (if bool_decide (l = "__proto__") then m else <[l := state]> m)
           | _, _ => None
           end) None states = None.
Proof. by induction states. Qed.

(** X14: [makeStates] called with names gives the object whose own members
    are exactly these names, each holding itself ("__proto__" apart, which
    an object does not store as a member); called with any states, it
    throws a TypeError exactly when one of them has no label ([undefined],
    [null], a symbol without description). *)
Theorem makeStates_members :
  (∀ names : list string,
     ∃ m, makeStates (VStr <$> names) = Some m ∧
          ∀ n, m !! n =
               if bool_decide (n ∈ names ∧ n ≠ "__proto__") then Some (VStr n) else None) ∧
  (∀ states, makeStates states = None ↔ ∃ s, s ∈ states ∧ getLabel s = None).
Proof.
  split.
  - intros names. unfold makeStates.
    assert (∀ m0 : gmap string value,
      ∃ m, foldl (λ (acc : option (gmap string value)) (state : value),
                    match acc, getLabel state with
                    | Some m, Some l =>
                        Some (if bool_decide (l = "__proto__") then m
                              else <[l := state]> m)
                    | _, _ => None
                    end) (Some m0) (fmap (M:=list) VStr names) = Some m ∧
           ∀ n, m !! n =
                if bool_decide (n ∈ names ∧ n ≠ "__proto__") then Some (VStr n)
                else m0 !! n) as Hgen.
    { induction names as [|x names IH]; intros m0.
      - exists m0. split; [done|]. intros n. rewrite bool_decide_eq_false_2; [done|].
        intros [Hin _]. by apply elem_of_nil in Hin.
      - cbn [fmap list_fmap foldl getLabel toString].
        destruct (IH (if bool_decide (x = "__proto__") then m0
                      else <[x := VStr x]> m0)) as (m & Hm & Hlook).
        exists m. split; [exact Hm|]. intros n. rewrite Hlook.
        destruct (decide (n ∈ names ∧ n ≠ "__proto__")) as [[Hin Hne]|Hnot].
        + rewrite !bool_decide_eq_true_2; [done| |done].
          split; [|done]. apply elem_of_cons. by right.
        + rewrite (bool_decide_eq_false_2 _ Hnot).
          destruct (decide (n = x)) as [->|Hnx].
          * destruct (decide (x = "__proto__")) as [Hp|Hp].
            -- rewrite (bool_decide_eq_true_2 _ Hp).
               rewrite bool_decide_eq_false_2; [done|]. by intros [_ ?].
            -- rewrite (bool_decide_eq_false_2 _ Hp), lookup_insert_eq.
               rewrite bool_decide_eq_true_2; [done|].
               split; [|done]. apply elem_of_cons. by left.
          * rewrite (bool_decide_eq_false_2 (n ∈ x :: names ∧ _)).
            -- destruct (bool_decide (x = "__proto__")); [done|].
               by rewrite lookup_insert_ne.
            -- intros [Hin Hne]. apply elem_of_cons in Hin as [?|Hin]; [done|].
               by apply Hnot. }
    destruct (Hgen ∅) as (m & Hm & Hlook). exists m. split; [done|].
    intros n. rewrite Hlook. by rewrite lookup_empty.
  - intros states. unfold makeStates. generalize (∅ : gmap string value) as m0.
    induction states as [|s states IH]; intros m0.
    + split; [done|]. intros (s & Hin & _). by apply elem_of_nil in Hin.
    + cbn [foldl]. destruct (getLabel s) as [l|] eqn:Hl.
      * rewrite IH. split.
        -- intros (s' & Hin & Hs'). exists s'. split; [|done]. apply elem_of_cons. by right.
        -- intros (s' & Hin & Hs'). apply elem_of_cons in Hin as [->|Hin]; [congruence|].
           by exists s'.
      * rewrite makeStates_failed. split; [|done]. intros _. exists s.
        split; [|done]. apply elem_of_cons. by left.
Qed.


Lemma reaches_head this input w r rest :
  pre_ok this input w w →
  candidates this = Some (r :: rest) →
  reaches this input w w [] (host w) r rest.
Proof.
  intros Hpre Hc. split; [done|]. split; [done|]. by exists scan_init.
Qed.

End Further.

(** ** The reader of paginated results *)

Section ReaderProperties.

Import ShopifyReader.

Context {Host : Type} (makeRequest parseResponse : @hostFn Host).

Implicit Types (w : @World Host) (reader : @FSM Host).

(** STATES.PRE_REQUEST, STATES.POST_REQUEST and STATES.FINISHED are the
    three names. *)
Lemma STATES_members :
  ∃ m, STATES = Some m ∧
       m !! "PRE_REQUEST" = Some PRE_REQUEST ∧
       m !! "POST_REQUEST" = Some POST_REQUEST ∧
       m !! "FINISHED" = Some FINISHED.
Proof. eexists. split; [reflexivity|]. repeat split. Qed.

Lemma reader_built :
  makeShopifyReaderFSM makeRequest parseResponse =
    Fulfilled (readerIn makeRequest parseResponse PRE_REQUEST).
Proof. reflexivity. Qed.

Lemma reader_pre_ok s input w :
  pre_ok (readerIn makeRequest parseResponse s) input w w.
Proof. split; reflexivity. Qed.

Lemma reader_commit s input (vars : @scan_vars Host) w :
  commit (readerIn makeRequest parseResponse s) input vars w =
    (w, readerIn makeRequest parseResponse (scan_nextState vars),
     Fulfilled (scan_nextState vars :: transitionOutput vars)).
Proof. reflexivity. Qed.

(** X15: the reader turns a failed request into a result.  When
    [makeRequest] rejects with [e], the first call of [advance] takes the
    reader to [ERROR], and the run started with [STATES.FINISHED] as its
    single final state returns [[ERROR, e]]; [parseResponse] is not
    called. *)
Theorem reader_request_failure reader args w h' e fuel :
  makeShopifyReaderFSM makeRequest parseResponse = Fulfilled reader →
  makeRequest args (host w) = (h', Throws e) →
  runFSM (S fuel) reader FINISHED args w =
    (set_host h' w, readerIn makeRequest parseResponse ERROR,
     Some (Fulfilled (Some [ERROR; e]))).
Proof.
  rewrite reader_built. intros [= <-] Hreq.
  assert (advance args (readerIn makeRequest parseResponse PRE_REQUEST) w =
            (set_host h' w, readerIn makeRequest parseResponse ERROR,
             Fulfilled [ERROR; e])) as Hadv.
  { rewrite (advance_reaches _ args w w [] (host w)
               (requestRule makeRequest) [] h'
               {| scan_nextState := ERROR;
                  attemptedTransition := Some (requestRule makeRequest);
                  transitionOutput := [e] |}).
    - apply reader_commit.
    - apply reaches_head; [apply reader_pre_ok|reflexivity].
    - unfold attempt, invokePromiseFn. cbn [transitionFn requestRule]. by rewrite Hreq.
    - reflexivity. }
  unfold runFSM. cbn [runFSM_loop normalizeFinalStates FINISHED].
  change (includes [VStr "FINISHED"; ERROR] VUndefined) with false. cbv iota.
  rewrite Hadv. cbn [hd tl]. by apply runFSM_loop_final.
Qed.

(** X16: one page of the reader.  A request that resolves with an array
    takes the reader to [POST_REQUEST] with the elements of the array as
    output, and [parseResponse] is called with them.  When it returns
    [[FINISHED, ...data]] the run returns that result after these two
    calls; when it returns [[PRE_REQUEST, ...next]] the reader is back in
    [PRE_REQUEST] and the next request is made with [next]. *)
Theorem reader_page reader args w h1 ref response h2 ref' next rest :
  makeShopifyReaderFSM makeRequest parseResponse = Fulfilled reader →
  makeRequest args (host w) = (h1, Returns (VArr ref response)) →
  parseResponse response h1 = (h2, Returns (VArr ref' (next :: rest))) →
  advance args reader w =
    (set_host h1 w, readerIn makeRequest parseResponse POST_REQUEST,
     Fulfilled (POST_REQUEST :: response)) ∧
  (next = FINISHED →
   ∀ fuel, runFSM (S (S fuel)) reader FINISHED args w =
             (set_host h2 w, readerIn makeRequest parseResponse FINISHED,
              Some (Fulfilled (Some (FINISHED :: rest))))) ∧
  (next = PRE_REQUEST →
   iterate 2 VUndefined args reader w =
     Some (set_host h2 w, reader, PRE_REQUEST, rest)).
Proof.
  rewrite reader_built. intros [= <-] Hreq Hparse.
  assert (advance args (readerIn makeRequest parseResponse PRE_REQUEST) w =
            (set_host h1 w, readerIn makeRequest parseResponse POST_REQUEST,
             Fulfilled (POST_REQUEST :: response))) as Hadv1.
  { rewrite (advance_reaches _ args w w [] (host w)
               (requestRule makeRequest) [] h1
               {| scan_nextState := POST_REQUEST;
                  attemptedTransition := Some (requestRule makeRequest);
                  transitionOutput := response |}).
    - apply reader_commit.
    - apply reaches_head; [apply reader_pre_ok|reflexivity].
    - unfold attempt, invokePromiseFn. cbn [transitionFn requestRule]. by rewrite Hreq.
    - reflexivity. }
  assert (truthy next = true →
          advance response (readerIn makeRequest parseResponse POST_REQUEST)
            (set_host h1 w) =
            (set_host h2 w, readerIn makeRequest parseResponse next,
             Fulfilled (next :: rest))) as Hadv2.
  { intros Hnext.
    rewrite (advance_reaches _ response (set_host h1 w) (set_host h1 w) [] h1
               (responseRule parseResponse) [] h2
               {| scan_nextState := next;
                  attemptedTransition := Some (responseRule parseResponse);
                  transitionOutput := rest |}).
    - apply reader_commit.
    - apply (reaches_head _ response (set_host h1 w));
        [apply reader_pre_ok|reflexivity].
    - unfold attempt, invokePromiseFn. cbn [transitionFn responseRule]. by rewrite Hparse.
    - done. }
  split; [done|]. split.
  - intros -> fuel. unfold runFSM. cbn [runFSM_loop normalizeFinalStates FINISHED].
    change (includes [VStr "FINISHED"; ERROR] VUndefined) with false. cbv iota.
    rewrite Hadv1. cbn [hd tl].
    change (includes [VStr "FINISHED"; ERROR] POST_REQUEST) with false. cbv iota.
    rewrite (Hadv2 eq_refl). cbn [hd tl]. by apply runFSM_loop_final.
  - intros ->. cbn [iterate]. rewrite Hadv1. cbn [hd tl]. by rewrite (Hadv2 eq_refl).
Qed.

End ReaderProperties.

(** * The further statements on the example machines *)

Lemma advance_in_transition_witness :
  advance [] (set_inTransition true (from_A [toB])) world0 =
    (world0, set_inTransition true (from_A [toB]),
     Rejected (FSMError "cannot advance while in transition")) ∧
  runFSM 3 (set_inTransition true (from_A [toB])) B [] world0 =
    (world0, set_inTransition true (from_A [toB]),
     Some (Rejected (FSMError "cannot advance while in transition"))).
Proof.
  destruct (advance_in_transition (set_inTransition true (from_A [toB])) [] world0 eq_refl)
    as (Hadv & Hrun & _).
  split; [exact Hadv|]. exact (Hrun 2%nat B eq_refl).
Defined.

Lemma advance_fulfilled_inv_witness :
  ∃ w1 skipped h r rest h' vars,
    reaches (from_A [nullFirst; toB; toC]) [] world0 w1 skipped h r rest ∧
    attempt r [] h = (h', vars) ∧
    tried (skipped ++ r :: rest) [] (host w1) scan_init = skipped ++ [r] ∧
    [B] = scan_nextState vars :: transitionOutput vars.
Proof.
  destruct (advance_fulfilled_inv [] (from_A [nullFirst; toB; toC]) world0
              (set_host 1%nat world0) (set_currentState B (from_A [nullFirst; toB; toC]))
              [B] eq_refl)
    as (w1 & skipped & h & r & rest & h' & vars & Hreach & Hatt & Htried & _ & Hres & _).
  exists w1, skipped, h, r, rest, h', vars.
  split; [exact Hreach|]. split; [exact Hatt|]. split; [exact Htried | exact Hres].
Defined.

Lemma advance_guard_left_set_witness :
  currentState (advance [] (new_FSM VUndefined) world0).1.2 = EMPTY ∧
  (∃ w1, pre_ok (new_FSM VUndefined) [] world0 w1) ∧
  ((advance [] (new_FSM VUndefined) world0).2 = Rejected TypeError ∨
   ∃ label, getLabel EMPTY = Some label ∧
            (advance [] (new_FSM VUndefined) world0).2 =
              Rejected (FSMError ("No valid transition from state " +:+ label))).
Proof.
  exact (advance_guard_left_set [] (new_FSM VUndefined) world0
           (advance [] (new_FSM VUndefined) world0).1.1
           (advance [] (new_FSM VUndefined) world0).1.2
           (advance [] (new_FSM VUndefined) world0).2 eq_refl eq_refl eq_refl).
Defined.

Lemma advance_state_truthy_witness :
  truthy (currentState (runFSM 4 abc (VArr 0 [C]) [VStr "a"] world0).1.2) = true.
Proof.
  exact (proj2 (advance_state_truthy [VStr "a"] abc world0) eq_refl 4%nat (VArr 0 [C])).
Defined.

Lemma registered_table_ok_witness :
  table_ok (from_A [fnB; toC]) ∧
  table_ok (advance [] (from_A [fnB; toC]) world0).1.2.
Proof.
  destruct (registered_table_ok A [(A, fnB, false); (A, toC, false)] (from_A [fnB; toC])
              eq_refl) as [Hok Hadv].
  split; [exact Hok | exact (Hadv [] world0)].
Defined.


Lemma inherited_key_registration_witness :
  addTransition (VStr "constructor") toB false (new_FSM A) = Rejected TypeError ∧
  on (VStr "toString") (failing err) (new_FSM A) = None.
Proof.
  split.
  - apply (proj1 (inherited_key_registration (KStr "constructor") (VStr "constructor")
                    toB false (failing err) (new_FSM A) eq_refl eq_refl));
      [reflexivity | by right].
  - apply (proj2 (inherited_key_registration (KStr "toString") (VStr "toString")
                    toB false (failing err) (new_FSM A) eq_refl eq_refl)).
    reflexivity.
Defined.

Lemma join_first_failure_witness :
  ∃ w2 record,
    callbackHashList failingThenLog posttransition
      (postPayload A B (Some toB) [] []) world1 = (w2, Some (Thrown err)) ∧
    heap w2 !! 0%nat = Some [record] ∧
    record !! "to" = Some (FValue B).
Proof.
  pose proof (join_first_failure failingThenLog posttransition (KStr "posttransition")
                (postPayload A B (Some toB) [] []) world1 [] (failing err) [logHandler 0]
                world1 world1 err eq_refl eq_refl eq_refl eq_refl) as Hjoin.
  do 2 eexists. split; [exact Hjoin|]. split; reflexivity.
Defined.

Lemma advance_static_rule_witness :
  advance [] (from_A [toB; fnC]) world0 =
    (world0, set_currentState B (from_A [toB; fnC]), Fulfilled [B]) ∧
  tried [toB; fnC] [] 0%nat scan_init = [toB].
Proof.
  destruct (advance_static_rule (from_A [toB; fnC]) [] world0 world0 [] 0%nat toB [fnC])
    as [Hadv Htried].
  - apply reaches_first; [apply pre_ok_from_A | reflexivity].
  - reflexivity.
  - reflexivity.
  - split; [exact Hadv | exact Htried].
Defined.

Lemma runFSM_result_witness :
  (runFSM 1 abc VUndefined [VStr "a"] world0 = (world0, abc, Some (Fulfilled None))) ∧
  ∃ n s out,
    [C; VStr "a->b->c"] = s :: out ∧ (S n ≤ 5)%nat ∧
    includes [C] s = true.
Proof.
  split.
  - exact (proj1 (runFSM_result 1 abc VUndefined [VStr "a"] world0) eq_refl).
  - destruct (proj2 (runFSM_result 5 abc (VArr 0 [C]) [VStr "a"] world0)
                (runFSM 5 abc (VArr 0 [C]) [VStr "a"] world0).1.1
                (runFSM 5 abc (VArr 0 [C]) [VStr "a"] world0).1.2
                (Some [C; VStr "a->b->c"]) eq_refl)
      as (n & s & out & Hr & Hn & _ & Hin & _).
    exists n, s, out. split; [exact Hr|]. split; [exact Hn | exact Hin].
Defined.

Lemma runFSM_surfaces_error_witness :
  runFSM 1 (from_A [failingNoErrorState; toB]) B [] world0 =
    (set_host 1%nat world0,
     set_inTransition false (set_currentState ERROR (from_A [failingNoErrorState; toB])),
     Some (Fulfilled (Some [ERROR; err]))).
Proof.
  apply (runFSM_surfaces_error 0 (from_A [failingNoErrorState; toB]) B [] world0 world0
           [] 0%nat failingNoErrorState [toB] (throwing err) 1%nat err
           (set_host 1%nat world0)).
  - reflexivity.
  - discriminate.
  - apply reaches_first; [apply pre_ok_from_A | reflexivity].
  - reflexivity.
  - reflexivity.
  - reflexivity.
  - reflexivity.
Defined.

Lemma run_is_logged_witness :
  ∃ w' fsm' recs,
    iterate 2 VUndefined [VStr "a"] abcLogged world1 =
      Some (w', fsm', C, [VStr "a->b->c"]) ∧
    heap w' !! 0%nat = Some recs ∧
    length recs = 2%nat ∧
    rerunFSM 3 abc C (VArr 0 [C]) recs world0 =
      runFSM 3 (set_currentState C abc) (VArr 0 [C]) [VStr "a->b->c"] world0.
Proof.
  destruct (iterate 2 VUndefined [VStr "a"] abcLogged world1)
    as [[[[w' fsm'] s] out]|] eqn:Hit; [|discriminate Hit].
  assert (s = C ∧ out = [VStr "a->b->c"]) as [-> ->]
    by (injection Hit as <- <- <- <-; split; reflexivity).
  destruct (run_is_logged 0 2 VUndefined [VStr "a"] abcLogged world1 [] w' fsm'
              C [VStr "a->b->c"] eq_refl eq_refl eq_refl Hit)
    as (recs & Hheap & Hlen & _ & Hresume).
  exists w', fsm', recs. split; [reflexivity|]. split; [exact Hheap|].
  split; [exact Hlen|]. exact (Hresume ltac:(discriminate) 3%nat abc (VArr 0 [C]) world0).
Defined.

Lemma reader_request_failure_witness :
  runFSM 1 (ShopifyReader.readerIn (throwing err) (returning VNull)
              ShopifyReader.PRE_REQUEST)
    ShopifyReader.FINISHED [VStr "spec"] world0 =
    (set_host 1%nat world0,
     ShopifyReader.readerIn (throwing err) (returning VNull) ERROR,
     Some (Fulfilled (Some [ERROR; err]))).
Proof.
  apply (reader_request_failure (throwing err) (returning VNull)
           (ShopifyReader.readerIn (throwing err) (returning VNull)
              ShopifyReader.PRE_REQUEST)
           [VStr "spec"] world0 1%nat err 0); reflexivity.
Defined.

Lemma reader_page_witness :
  runFSM 2 (ShopifyReader.readerIn passthrough
              (returning (VArr 0 [ShopifyReader.FINISHED; VStr "data"]))
              ShopifyReader.PRE_REQUEST)
    ShopifyReader.FINISHED [VStr "spec"] world0 =
    (set_host 2%nat world0,
     ShopifyReader.readerIn passthrough
       (returning (VArr 0 [ShopifyReader.FINISHED; VStr "data"])) ShopifyReader.FINISHED,
     Some (Fulfilled (Some [ShopifyReader.FINISHED; VStr "data"]))).
Proof.
  refine (proj1 (proj2 (reader_page passthrough
            (returning (VArr 0 [ShopifyReader.FINISHED; VStr "data"]))
            (ShopifyReader.readerIn passthrough
               (returning (VArr 0 [ShopifyReader.FINISHED; VStr "data"]))
               ShopifyReader.PRE_REQUEST)
            [VStr "spec"] world0 1%nat 0%nat [VStr "spec"] 2%nat 0%nat
            ShopifyReader.FINISHED [VStr "data"] eq_refl eq_refl eq_refl))
            eq_refl 0%nat).
Defined.
